(** * Price scraping and aggregation pipeline of [main.py]

    A shallow embedding of the three pure layers of the scraper:
    - the price parser ([extract_price], [extract_discount_rate]),
    - the per-page product extractor ([get_product_info]),
    - the aggregator ([calculate_summary_stats]).

    Conventions of the embedding.
    - A Python [str] is the list of its Unicode code points.
    - A Python [float] is the rational number it denotes ([Qc], canonical
      rationals with Leibniz equality); arithmetic is exact, so rounding
      and overflow to infinity of binary64 are outside the model.
    - [None] in a record and [NaN] in a data-frame column are both the
      [None] of [option Qc]: pandas does not tell them apart.
    - Exceptions are explicit: a function that may raise returns a
      [result], and the handlers of the source are the matches on it. *)

From Stdlib Require Import QArith Qcanon.
From stdpp Require Import base option numbers list sorting lexico gmap sets
  strings pretty.

Local Open Scope Qc_scope.

(** ** Strings *)

(** A string is its sequence of code points. *)
Abbreviation str := (list N).

Module Str.

(** The code points of an ASCII literal. *)
Definition lit (s : string) : str :=
  Ascii.N_of_ascii <$> String.list_ascii_of_string s.

Definition full_stop : N := 46.   (* '.' *)
Definition comma : N := 44.       (* ',' *)
Definition won_sign : N := 8361.  (* U+20A9, the currency sign *)
Definition won : N := 50896.      (* U+C6D0, the currency marker of a price *)

End Str.

(** ** PriceParser *)

Section Parser.

(** The decimal-digit property of the code points outside ASCII, as the
    interpreter's character database gives it: [\d] in a pattern and
    [float()] on a string both consult it. *)
Variable unicode_decimal : N → option N.

Definition decimal_digit (c : N) : option N :=
  if (c <? 128)%N
  then (if (48 <=? c)%N && (c <=? 57)%N then Some (c - 48)%N else None)
  else unicode_decimal c.

(** [re.sub(r'[^\d.]', '', text)]: every character outside the class is
    replaced by the empty string. *)
Definition in_class (c : N) : bool :=
  bool_decide (is_Some (decimal_digit c)) || bool_decide (c = Str.full_stop).

Definition re_sub_strip (text : str) : str := filter (λ c, in_class c) text.

(** [s.replace(',', '')] *)
Definition replace_comma (s : str) : str := filter (λ c, c ≠ Str.comma) s.

(** [float(s)] on a string of digits and full stops: an optional run of
    digits, an optional full stop, an optional run of digits, with one
    digit at least.  [scan_float] reads the string left to right keeping
    the digits read so far as a number [m], the count of digits after the
    full stop ([None] before it) and whether a digit was seen; [None] is
    [ValueError].  Characters outside the two classes do not reach
    [float] here ([re_sub_strip] removed them); the scan rejects them. *)
Fixpoint scan_float (s : str) (m : N) (frac : option nat) (seen : bool)
  : option (N * nat) :=
  match s with
  | [] => if seen then Some (m, default 0%nat frac) else None
  | c :: s' =>
      match decimal_digit c with
      | Some d => scan_float s' (10 * m + d)%N (S <$> frac) true
      | None =>
          if bool_decide (c = Str.full_stop)
          then match frac with
               | None => scan_float s' m (Some 0%nat) seen
               | Some _ => None
               end
          else None
      end
  end.

(** The number written [m] with the last [k] digits after the point. *)
Definition decimal (m : N) (k : nat) : Qc :=
  Q2Qc (Z.of_N m # Z.to_pos (10 ^ Z.of_nat k)).

Definition float_of_str (s : str) : option Qc :=
  '(m, k) ← scan_float s 0%N None false; Some (decimal m k).

Definition extract_price (price_text : str) : option Qc :=
  float_of_str (replace_comma (re_sub_strip price_text)).

Definition extract_discount_rate (rate_text : str) : option Qc :=
  float_of_str (re_sub_strip rate_text).

End Parser.

(** ** ProductExtractor *)

(** One row of the product table (the dictionaries of [products]). *)
Record ProductRecord := {
  Category : str;
  BrandName : str;
  ProductName : str;
  OriginalPrice : option Qc;
  DiscountRate : option Qc;
  ActualSalePrice : option Qc
}.

#[global] Instance ProductRecord_eq_dec : EqDecision ProductRecord.
Proof. solve_decision. Defined.

(** A rendered product card, as far as the three XPath queries of
    [get_product_info] see it: the text of the first name span if there is
    one, and the price spans (class [sc-fWnslK]) in document order, each
    with its text and whether it also carries the class [text-red]. *)
Record span := { text : str; text_red : bool }.

Record card := { name_span : option str; price_spans : list span }.

Module Driver.

(** [element.find_element(...).text]; [None] is [NoSuchElementException].
    The query returns the first match in document order. *)
Definition find_name (element : card) : option str := name_span element.

Definition find_sale_price (element : card) : option str :=
  text <$> head (filter (λ s, text_red s = false) (price_spans element)).

Definition find_discount_rate (element : card) : option str :=
  text <$> head (filter (λ s, text_red s = true) (price_spans element)).

(** [element.find_elements(...)]: every price span; an empty list when
    nothing matches, never an exception. *)
Definition find_price_elements (element : card) : list span :=
  price_spans element.

End Driver.

(** Exceptions that the modelled code raises and does not handle where
    they arise, and the outcome of a computation that may raise one. *)
Inductive exn := UnboundLocalError | KeyError.

Inductive result (A : Type) : Type :=
  | Ok (a : A)
  | Raise (e : exn).

Arguments Ok {A} a.
Arguments Raise {A} e.

#[global] Instance result_ret : MRet result := λ A a, Ok a.

#[global] Instance result_bind : MBind result := λ A B f m,
  match m with
  | Ok a => f a
  | Raise e => Raise e
  end.

Section Extractor.

Variable unicode_decimal : N → option N.

Abbreviation extract_price := (extract_price unicode_decimal).
Abbreviation extract_discount_rate := (extract_discount_rate unicode_decimal).

(** The variables of [get_product_info] that live across iterations of the
    loop over the cards.  [sale_price_text] is assigned only when the
    sale-price span exists: before the first assignment it is unbound
    ([None]), afterwards it keeps the text of the last card that had one. *)
Record locals := {
  products : list ProductRecord;
  unique_prices : gset (option Qc);
  sale_price_text : option str
}.

Definition sentinel (category user_brand_name : str) : ProductRecord :=
  {| Category := category; BrandName := user_brand_name;
     ProductName := Str.lit "X";
     OriginalPrice := None; DiscountRate := None; ActualSalePrice := None |}.

(** The inner loop over [price_elements] (lines 90-94).  [Raise] is the
    exception of reading the unbound [sale_price_text]; [Ok None] is a
    loop that ends without [break]; [Ok (Some p)] is the value assigned to
    [original_price] before [break]. *)
Fixpoint scan_price_elements (price_elements : list span)
    (sale_price_text : option str) : result (option (option Qc)) :=
  match price_elements with
  | [] => Ok None
  | price_el :: rest =>
      let price := text price_el in
      if bool_decide (price = [])
      then scan_price_elements rest sale_price_text
      else
        match sale_price_text with
        | None => Raise UnboundLocalError
        | Some sale =>
            if bool_decide (price ≠ sale) && bool_decide (Str.won ∈ price)
            then Ok (Some (extract_price price))
            else scan_price_elements rest sale_price_text
        end
  end.

(** One iteration of the loop over the cards (lines 59-107). *)
Definition loop_body (category user_brand_name : str) (element : card)
    (σ : locals) : result locals :=
  let product_name := default (Str.lit "N/A") (Driver.find_name element) in
  let '(sale_text, actual_sale_price) :=
    match Driver.find_sale_price element with
    | Some t => (Some t, extract_price t)
    | None => (sale_price_text σ, None)
    end in
  if bool_decide (actual_sale_price ∈ unique_prices σ)
  then (* continue *)
    Ok {| products := products σ; unique_prices := unique_prices σ;
           sale_price_text := sale_text |}
  else
    let unique := unique_prices σ ∪ {[ actual_sale_price ]} in
    let discount_rate :=
      Driver.find_discount_rate element ≫= extract_discount_rate in
    original_price ←
      match discount_rate with
      | Some _ =>
          (* original_price = None, then the scan; the handler of
             NoSuchElementException is never entered, find_elements does
             not raise it *)
          found ← scan_price_elements (Driver.find_price_elements element)
                    sale_text;
          Ok (default None found)
      | None => Ok actual_sale_price
      end;
    Ok {| products := products σ ++
             [ {| Category := category; BrandName := user_brand_name;
                  ProductName := product_name;
                  OriginalPrice := original_price;
                  DiscountRate := discount_rate;
                  ActualSalePrice := actual_sale_price |} ];
           unique_prices := unique;
           sale_price_text := sale_text |}.

(** The loop; an exception leaves it for the handler of line 109, after
    which [products] is returned as it is. *)
Fixpoint for_each (category user_brand_name : str)
    (product_elements : list card) (σ : locals) : list ProductRecord :=
  match product_elements with
  | [] => products σ
  | element :: rest =>
      match loop_body category user_brand_name element σ with
      | Ok σ' => for_each category user_brand_name rest σ'
      | Raise _ => products σ
      end
  end.

Definition initial : locals :=
  {| products := []; unique_prices := ∅; sale_price_text := None |}.

(** [get_product_info], from the cards that [driver.find_elements]
    returned for the page. *)
Definition get_product_info (product_elements : list card)
    (category user_brand_name : str) : list ProductRecord :=
  if bool_decide (product_elements = [])
  then [ sentinel category user_brand_name ]
  else for_each category user_brand_name product_elements initial.

End Extractor.

(** ** Aggregator *)

(** One row of a summary table. *)
Module SummaryRow.
Record t := {
  Category : str;
  BrandName : str;
  Metric : str;
  Max : Qc;
  Min : Qc;
  AvgMaxMin : Qc;
  Avg : Qc
}.
End SummaryRow.

(** The reflexive closure of the lexicographic order: the order in which
    pandas sorts group keys (strings, or tuples of strings). *)
Definition lex_le `{Lexico A} : relation A := λ a b, a = b ∨ lexico a b.

Section lex_le.
Context `{Lexico A, !StrictOrder (@lexico A _), !TrichotomyT (@lexico A _)}.

#[global] Instance lex_le_dec : RelDecision (@lex_le A _).
Proof.
  intros a b. unfold lex_le.
  destruct (trichotomyT lexico a b) as [[Hlt|Heq]|Hgt].
  - left. by right.
  - left. by left.
  - right. intros [->|Hlt].
    + by apply (irreflexivity lexico) in Hgt.
    + apply (irreflexivity lexico b). by trans a.
Defined.
End lex_le.

(** The operations of a pandas [Series] of floats that the aggregator uses.
    A series that went through [dropna] is a [list Qc]; the reductions are
    applied under a test that it is not empty, so they take its first
    element apart. *)
Module Series.

Definition dropna (s : list (option Qc)) : list Qc := omap id s.

Definition Qc_max (x y : Qc) : Qc := if decide (x ≤ y) then y else x.
Definition Qc_min (x y : Qc) : Qc := if decide (x ≤ y) then x else y.

Definition max (x : Qc) (xs : list Qc) : Qc := foldl Qc_max x xs.
Definition min (x : Qc) (xs : list Qc) : Qc := foldl Qc_min x xs.

Definition sum (s : list Qc) : Qc := foldl Qcplus 0 s.

Definition len (s : list Qc) : Qc := Qc_of_Z (Z.of_nat (length s)).

Definition mean (x : Qc) (xs : list Qc) : Qc := sum (x :: xs) / len (x :: xs).

(** [Series.mean()] on a column that may hold [NaN]: they are skipped, and
    the mean of nothing is [NaN]. *)
Definition nanmean (s : list (option Qc)) : option Qc :=
  match dropna s with
  | [] => None
  | x :: xs => Some (mean x xs)
  end.

End Series.

(** String formatting of the f-strings. *)
Module Format.

(** [f"{n}"] for a length. *)
Definition int (n : nat) : str := Str.lit (pretty (N.of_nat n)).

(** The integer nearest to [n/d], ties to the even one. *)
Definition round_half_even (n d : N) : N :=
  let f := (n / d)%N in
  let r := (n mod d)%N in
  match (2 * r ?= d)%N with
  | Lt => f
  | Gt => (f + 1)%N
  | Eq => if N.even f then f else (f + 1)%N
  end.

Definition two_digits (n : N) : str :=
  Str.lit (pretty (n / 10)%N) ++ Str.lit (pretty (n mod 10)%N).

(** [f"{x:.2f}"] for a float: [nan] for [NaN]; otherwise the sign, and the
    absolute value rounded to hundredths. *)
Definition fixed2 (x : option Qc) : str :=
  match x with
  | None => Str.lit "nan"
  | Some q =>
      let n := Qnum (this q) in
      let h := round_half_even (100 * Z.to_N (Z.abs n))
                 (Npos (Qden (this q))) in
      (if decide (n < 0)%Z then Str.lit "-" else []) ++
      Str.lit (pretty (h / 100)%N) ++ Str.lit "." ++ two_digits (h mod 100)%N
  end.

End Format.

Section Aggregator.

Implicit Types (df group : list ProductRecord).

(** [df.groupby(key)]: the distinct keys in ascending order, each with the
    rows that carry it, in the order of the frame. *)
Definition group_keys `{EqDecision K, Lexico K, !StrictOrder (@lexico K _),
    !TrichotomyT (@lexico K _)} (key : ProductRecord → K) df : list K :=
  merge_sort lex_le (remove_dups (key <$> df)).

Definition groupby `{EqDecision K, Lexico K, !StrictOrder (@lexico K _),
    !TrichotomyT (@lexico K _)} (key : ProductRecord → K) df
  : list (K * list ProductRecord) :=
  (λ k, (k, filter (λ r, key r = k) df)) <$> group_keys key df.

Definition metric_original (count : nat) : str :=
  Str.lit "Original Price (" ++ Format.int count ++ Str.lit ")".

Definition metric_actual (avg_discount_rate : option Qc) : str :=
  Str.lit "Actual Sale Price (" ++ Format.fixed2 avg_discount_rate ++
  Str.lit "%)".

Definition stats_row (category brand_name metric : str) (x : Qc)
    (xs : list Qc) : SummaryRow.t :=
  {| SummaryRow.Category := category;
     SummaryRow.BrandName := brand_name;
     SummaryRow.Metric := metric;
     SummaryRow.Max := Series.max x xs;
     SummaryRow.Min := Series.min x xs;
     SummaryRow.AvgMaxMin := (Series.max x xs + Series.min x xs) / 2;
     SummaryRow.Avg := Series.mean x xs |}.

(** The body of the first loop (lines 120-154): the rows that one
    (category, brand) group appends to [summary]. *)
Definition brand_rows (category brand_name : str) group : list SummaryRow.t :=
  let price_ori_stats := Series.dropna (OriginalPrice <$> group) in
  let actual_price_stats := Series.dropna (ActualSalePrice <$> group) in
  let discount_stats := Series.dropna (DiscountRate <$> group) in
  match price_ori_stats with
  | [] => []
  | x :: xs =>
      [ stats_row category brand_name
          (metric_original (length price_ori_stats)) x xs ]
  end ++
  match actual_price_stats with
  | [] => []
  | x :: xs =>
      let avg_discount_rate :=
        match discount_stats with
        | [] => Some 0
        | d :: ds => Some (Series.mean d ds)
        end in
      [ stats_row category brand_name (metric_actual avg_discount_rate)
          x xs ]
  end.

(** The first loop.  Its variable [brand_name] stays bound, after the
    loop, to the brand of the last group; it is unbound ([None]) when
    there was no group. *)
Definition brand_body (st : list SummaryRow.t * option str)
    (g : str * str * list ProductRecord) : list SummaryRow.t * option str :=
  let '(summary, _) := st in
  let '((category, brand_name), group) := g in
  (summary ++ brand_rows category brand_name group, Some brand_name).

Definition brand_loop (groups : list (str * str * list ProductRecord))
  : list SummaryRow.t * option str :=
  foldl brand_body ([], None) groups.

Definition all_label (category : str) : str :=
  Str.lit "ALL (" ++ category ++ Str.lit ")".

(** The body of the second loop (lines 157-182).  [brand_name] is assigned
    only under the test of the original prices; the row of the actual
    prices reads whatever it holds. *)
Definition category_body (category : str) group
    (st : list SummaryRow.t * option str) : result (list SummaryRow.t * option str) :=
  let '(category_stats, brand_name) := st in
  let ori_prices := Series.dropna (OriginalPrice <$> group) in
  let actual_prices := Series.dropna (ActualSalePrice <$> group) in
  let '(category_stats, brand_name) :=
    match ori_prices with
    | [] => (category_stats, brand_name)
    | x :: xs =>
        let brand_name := all_label category in
        (category_stats ++
           [ stats_row category brand_name
               (metric_original (length ori_prices)) x xs ],
         Some brand_name)
    end in
  match actual_prices with
  | [] => Ok (category_stats, brand_name)
  | x :: xs =>
      let avg_discount_rate :=
        if bool_decide (DiscountRate <$> group = [])
        then Some 0
        else Series.nanmean (DiscountRate <$> group) in
      match brand_name with
      | None => Raise UnboundLocalError
      | Some b =>
          Ok (category_stats ++
                [ stats_row category b (metric_actual avg_discount_rate)
                    x xs ],
              brand_name)
      end
  end.

Fixpoint category_loop (groups : list (str * list ProductRecord))
    (st : list SummaryRow.t * option str) : result (list SummaryRow.t * option str) :=
  match groups with
  | [] => Ok st
  | (category, group) :: rest =>
      st' ← category_body category group st;
      category_loop rest st'
  end.

(** [pd.DataFrame(rows).sort_values(by='Category')]: a frame built from
    no row has no column, and sorting it by one raises [KeyError]. *)
Definition sort_values_by_category (rows : list SummaryRow.t)
  : result (list SummaryRow.t) :=
  match rows with
  | [] => Raise KeyError
  | _ => Ok (merge_sort (λ r1 r2, lex_le (SummaryRow.Category r1) (SummaryRow.Category r2))
               rows)
  end.

(** [calculate_summary_stats], on the frame built from the product rows.
    A frame built from no row has no column either: [groupby] raises
    [KeyError] on it, as the sort of the empty [category_stats] does. *)
Definition calculate_summary_stats df : result (list SummaryRow.t * list SummaryRow.t) :=
  let '(summary, brand_name) :=
    brand_loop (groupby (λ r, (Category r, BrandName r)) df) in
  '(category_stats, _) ←
    category_loop (groupby Category df) ([], brand_name);
  category_summary ← sort_values_by_category category_stats;
  Ok (summary, category_summary).

End Aggregator.

(** ** Reference notions for the statements *)

(** The sale price that [get_product_info] computes for a card: the parse of
    the sale-price span, [None] when the span is missing. *)
Definition card_sale_price (unicode_decimal : N → option N) (element : card)
  : option Qc :=
  Driver.find_sale_price element ≫= extract_price unicode_decimal.

(** The first occurrences of the values of a list that are not in [seen],
    in order. *)
Fixpoint first_seen `{Countable A} (seen : gset A) (l : list A) : list A :=
  match l with
  | [] => []
  | x :: l =>
      if decide (x ∈ seen) then first_seen seen l
      else x :: first_seen (seen ∪ {[ x ]}) l
  end.

(** The counts that decide whether [float] accepts a stripped text. *)
Definition digits (unicode_decimal : N → option N) (s : str) : nat :=
  length (filter (λ c, is_Some (decimal_digit unicode_decimal c)) s).

Definition full_stops (s : str) : nat :=
  length (filter (λ c, c = Str.full_stop) s).

(** The greatest and the least value of a list. *)
Definition is_maximum (m : Qc) (values : list Qc) : Prop :=
  m ∈ values ∧ ∀ v, v ∈ values → v ≤ m.

Definition is_minimum (m : Qc) (values : list Qc) : Prop :=
  m ∈ values ∧ ∀ v, v ∈ values → m ≤ v.

(** What a summary row says about the values it was computed from. *)
Definition summarises (row : SummaryRow.t) (values : list Qc) : Prop :=
  values ≠ [] ∧
  is_maximum (SummaryRow.Max row) values ∧
  is_minimum (SummaryRow.Min row) values ∧
  SummaryRow.AvgMaxMin row = (SummaryRow.Max row + SummaryRow.Min row) / 2 ∧
  SummaryRow.Avg row = Series.sum values / Series.len values.

(** A record with a price in at least one of the two price fields. *)
Definition has_price (r : ProductRecord) : Prop :=
  is_Some (OriginalPrice r) ∨ is_Some (ActualSalePrice r).

(** The values of a field that are present in a group of records. *)
Definition present (field : ProductRecord → option Qc)
    (group : list ProductRecord) : list Qc :=
  omap field group.

(** A group in which one of the two price fields has a value. *)
Definition priced (group : list ProductRecord) : Prop :=
  present OriginalPrice group ≠ [] ∨ present ActualSalePrice group ≠ [].

(** The rule that ties the original price to the sale price. *)
Definition discount_rule (r : ProductRecord) : Prop :=
  DiscountRate r = None → OriginalPrice r = ActualSalePrice r.

(** What one iteration of the loop over the cards does to the variables of
    the loop: it skips a card whose sale price was seen, it appends one
    record for a new sale price, or it raises, which needs a card without a
    sale-price span. *)
Inductive iteration (unicode_decimal : N → option N)
    (category user_brand_name : str) (element : card) (σ : locals)
  : result locals → Prop :=
  | iteration_skip :
      card_sale_price unicode_decimal element ∈ unique_prices σ →
      iteration unicode_decimal category user_brand_name element σ
        (Ok {| products := products σ; unique_prices := unique_prices σ;
               sale_price_text :=
                 from_option Some (sale_price_text σ)
                   (Driver.find_sale_price element) |})
  | iteration_emit r :
      card_sale_price unicode_decimal element ∉ unique_prices σ →
      ActualSalePrice r = card_sale_price unicode_decimal element →
      Category r = category →
      BrandName r = user_brand_name →
      discount_rule r →
      iteration unicode_decimal category user_brand_name element σ
        (Ok {| products := products σ ++ [r];
               unique_prices :=
                 unique_prices σ ∪
                 {[ card_sale_price unicode_decimal element ]};
               sale_price_text :=
                 from_option Some (sale_price_text σ)
                   (Driver.find_sale_price element) |})
  | iteration_raise e :
      card_sale_price unicode_decimal element ∉ unique_prices σ →
      Driver.find_sale_price element = None →
      iteration unicode_decimal category user_brand_name element σ (Raise e).

(** The price field that a row is about, as its label tells. *)
Definition row_field (row : SummaryRow.t) (field : ProductRecord → option Qc)
  : Prop :=
  (field = OriginalPrice ∧ ∃ count, SummaryRow.Metric row = metric_original count) ∨
  (field = ActualSalePrice ∧ ∃ rate, SummaryRow.Metric row = metric_actual rate).

(** Where a row of a group comes from: one of the two price fields, which
    has a value in the group. *)
Definition row_of_group (category : str) (group : list ProductRecord)
    (row : SummaryRow.t) : Prop :=
  SummaryRow.Category row = category ∧
  ∃ field, row_field row field ∧ summarises row (present field group).

(** The labels of the rows of a group: what the brand summary writes, and
    what the category summary writes. *)
Definition brand_metric (group : list ProductRecord) (row : SummaryRow.t) : Prop :=
  SummaryRow.Metric row = metric_original (length (present OriginalPrice group)) ∨
  SummaryRow.Metric row =
    metric_actual
      (Some match present DiscountRate group with
            | [] => 0
            | d :: ds => Series.mean d ds
            end).

Definition category_metric (group : list ProductRecord) (row : SummaryRow.t)
  : Prop :=
  SummaryRow.Metric row = metric_original (length (present OriginalPrice group)) ∨
  SummaryRow.Metric row =
    metric_actual
      (if bool_decide (group = []) then Some 0
       else match present DiscountRate group with
            | [] => None
            | d :: ds => Some (Series.mean d ds)
            end).

Definition category_label (category : str) (group : list ProductRecord)
    (row : SummaryRow.t) : Prop :=
  present OriginalPrice group ≠ [] → SummaryRow.BrandName row = all_label category.

(** In a proof by induction on the cards: the induction hypothesis at the
    state that the loop continues with. *)
Ltac use_IH IH :=
  match goal with
  | |- context [for_each _ _ _ ?rest ?σ'] =>
      let H := fresh "IH" in
      pose proof (IH σ') as H; simpl in H
  end.

(** A character database without decimal digits outside ASCII, and a few
    pages, for the examples. *)
Definition ascii_only : N → option N := λ _, None.

Module Example.

Definition price (digits : string) : str := Str.lit digits ++ [Str.won].

(** A sale price and a discount badge, the list price not shown. *)
Definition discounted_card : card :=
  {| name_span := Some (Str.lit "shirt");
     price_spans := [ {| text := price "9,000"; text_red := false |};
                      {| text := Str.lit "10%"; text_red := true |} ] |}.

(** A sale price only. *)
Definition plain_card : card :=
  {| name_span := Some (Str.lit "socks");
     price_spans := [ {| text := price "9,000"; text_red := false |} ] |}.

(** A discount badge, a sale price and the list price. *)
Definition full_card : card :=
  {| name_span := None;
     price_spans := [ {| text := Str.lit "20%"; text_red := true |};
                      {| text := price "8,000"; text_red := false |};
                      {| text := price "10,000"; text_red := false |} ] |}.

(** A discount badge and nothing else. *)
Definition badge_card : card :=
  {| name_span := Some (Str.lit "cap");
     price_spans := [ {| text := Str.lit "10%"; text_red := true |} ] |}.

Definition A : str := Str.lit "A".
Definition B : str := Str.lit "B".
Definition X : str := Str.lit "X".

(** Two records of one brand, the first one discounted. *)
Definition discounted_record : ProductRecord :=
  {| Category := A; BrandName := X; ProductName := Str.lit "shirt";
     OriginalPrice := Some (Qc_of_Z 100);
     DiscountRate := Some (Qc_of_Z 10);
     ActualSalePrice := Some (Qc_of_Z 90) |}.

Definition plain_record : ProductRecord :=
  {| Category := A; BrandName := X; ProductName := Str.lit "socks";
     OriginalPrice := Some (Qc_of_Z 200);
     DiscountRate := None;
     ActualSalePrice := Some (Qc_of_Z 200) |}.

(** What is read off a summary row: brand, metric, and the four numbers
    [Max], [Min], [Avg Max Min], [Avg]. *)
Definition shown (row : SummaryRow.t) : str * str * list Q :=
  (SummaryRow.BrandName row, SummaryRow.Metric row,
   this <$> [SummaryRow.Max row; SummaryRow.Min row; SummaryRow.AvgMaxMin row; SummaryRow.Avg row]).

End Example.

(** ** Further reference notions *)

(** The number that the decimal digits of a text spell, read left to right,
    and the count of the digits that come after its first full stop. *)
Definition spelled (unicode_decimal : N → option N) (s : str) : N :=
  foldl (λ m c, match decimal_digit unicode_decimal c with
                | Some d => (10 * m + d)%N
                | None => m
                end) 0%N s.

Fixpoint after_full_stop (s : str) : str :=
  match s with
  | [] => []
  | c :: s' => if bool_decide (c = Str.full_stop) then s' else after_full_stop s'
  end.

Definition decimals (unicode_decimal : N → option N) (s : str) : nat :=
  digits unicode_decimal (after_full_stop s).

(** What [get_product_info] reads off a card that has a sale-price span:
    the discount rate, and the original price, which is the sale price
    without a discount rate and otherwise the parse of the first price span
    that differs from the sale-price text and carries the currency marker,
    if there is one. *)
Definition card_discount_rate (unicode_decimal : N → option N)
    (element : card) : option Qc :=
  Driver.find_discount_rate element ≫= extract_discount_rate unicode_decimal.

Definition card_original_price (unicode_decimal : N → option N)
    (element : card) : option Qc :=
  match card_discount_rate unicode_decimal element with
  | None => card_sale_price unicode_decimal element
  | Some _ =>
      sale ← Driver.find_sale_price element;
      price_el ← head (filter (λ s, text s ≠ sale ∧ Str.won ∈ text s)
                         (price_spans element));
      extract_price unicode_decimal (text price_el)
  end.

(** A record as read off one card, for a call with the given category and
    brand. *)
Definition record_of_card (unicode_decimal : N → option N)
    (category user_brand_name : str) (element : card) (r : ProductRecord)
  : Prop :=
  Category r = category ∧
  BrandName r = user_brand_name ∧
  ProductName r = default (Str.lit "N/A") (Driver.find_name element) ∧
  ActualSalePrice r = card_sale_price unicode_decimal element ∧
  DiscountRate r = card_discount_rate unicode_decimal element ∧
  (is_Some (Driver.find_sale_price element) →
   OriginalPrice r = card_original_price unicode_decimal element).

(** ** The run: [main], as far as the summaries *)

(** String methods that [main] and the report use. *)
Module Text.

(** [s.split(sep)], for a separator of one character: the pieces between
    the separators, one more than there are separators. *)
Fixpoint split (sep : N) (s : str) : list str :=
  match s with
  | [] => [[]]
  | c :: s' =>
      if bool_decide (c = sep) then [] :: split sep s'
      else match split sep s' with
           | [] => [[c]]
           | piece :: pieces => (c :: piece) :: pieces
           end
  end.

(** White space: the ASCII characters that Python counts as such, and the
    character database beyond ASCII. *)
Definition is_space (unicode_space : N → bool) (c : N) : bool :=
  if (c <? 128)%N
  then ((9 <=? c)%N && (c <=? 13)%N) || ((28 <=? c)%N && (c <=? 32)%N)
  else unicode_space c.

Fixpoint lstrip (space : N → bool) (s : str) : str :=
  match s with
  | [] => []
  | c :: s' => if space c then lstrip space s' else s
  end.

(** [s.strip()] *)
Definition strip (space : N → bool) (s : str) : str :=
  reverse (lstrip space (reverse (lstrip space s))).

(** [needle in hay], and [Series.str.contains] for a pattern without
    special characters. *)
Fixpoint contains (needle hay : str) : bool :=
  bool_decide (needle `prefix_of` hay) ||
  match hay with
  | [] => false
  | _ :: hay' => contains needle hay'
  end.

End Text.

(** What the driver shows for a request: the cards of the page; a failure of
    [find_elements], which [get_product_info] catches; or a failure of
    [driver.get] or of the scrolling, which [main] catches. *)
Inductive page :=
  | Loaded (product_elements : list card)
  | FindFailed
  | GetFailed.

(** How a run ends, as far as line 296. *)
Inductive outcome :=
  | NoProducts
  | Crashed (e : exn)
  | Summarised (df : list ProductRecord)
      (summary category_summary : list SummaryRow.t).

Section Main.

Variable unicode_decimal : N → option N.
Variable unicode_space : N → bool.

(** The site: what the request number [n] of the run, for an address, ends
    in. *)
Variable site : nat → str → page.

Definition url (user_brand_name title : str) : str :=
  Str.lit "https://www.musinsa.com/brands/" ++ user_brand_name ++
  Str.lit "?includeKeywords=" ++ title ++
  Str.lit "&sortCode=NEW&page=1&size=120&listViewType=3GridView".

(** [get_product_info(driver, category, user_brand_name)] on what the driver
    shows: when [find_elements] fails, the handler of line 109 returns the
    list of products, still empty. *)
Definition get_product_info_on (shown : page)
    (category user_brand_name : str) : list ProductRecord :=
  match shown with
  | Loaded product_elements =>
      get_product_info unicode_decimal product_elements category
        user_brand_name
  | FindFailed | GetFailed => []
  end.

(** The inner loop over the titles (lines 276-283), for one brand: the
    products collected, the count of requests made, and whether a
    [WebDriverException] left the loops. *)
Fixpoint titles_loop (user_brand_name : str) (titles : list str)
    (all_products : list ProductRecord) (n : nat)
  : list ProductRecord * nat * bool :=
  match titles with
  | [] => (all_products, n, false)
  | title :: rest =>
      let title := Text.strip (Text.is_space unicode_space) title in
      match site n (url user_brand_name title) with
      | GetFailed => (all_products, S n, true)
      | shown =>
          titles_loop user_brand_name rest
            (all_products ++ get_product_info_on shown title user_brand_name)
            (S n)
      end
  end.

(** The loop over the brands (lines 274-283) inside its [try]: the products
    collected when it ends, by exhaustion or by the exception. *)
Fixpoint brands_loop (brand_names titles : list str)
    (all_products : list ProductRecord) (n : nat) : list ProductRecord :=
  match brand_names with
  | [] => all_products
  | brand_name :: rest =>
      let user_brand_name :=
        Text.strip (Text.is_space unicode_space) brand_name in
      match titles_loop user_brand_name titles all_products n with
      | (all_products, _, true) => all_products
      | (all_products, n, false) => brands_loop rest titles all_products n
      end
  end.

(** [df.sort_values(by=['Category', 'Brand Name'])] *)
Definition sort_values_by_keys (df : list ProductRecord)
  : list ProductRecord :=
  merge_sort (λ r1 r2, lex_le (Category r1, BrandName r1)
                         (Category r2, BrandName r2)) df.

(** [main], from the two lines read to the call of
    [calculate_summary_stats] (lines 268-296); the writing of the workbook
    and of the report comes after. *)
Definition main_summary (titles_line brands_line : str) : outcome :=
  let titles := Text.split Str.comma titles_line in
  let brand_names := Text.split Str.comma brands_line in
  let all_products := brands_loop brand_names titles [] 0 in
  if bool_decide (all_products = []) then NoProducts
  else
    let df := sort_values_by_keys all_products in
    match calculate_summary_stats df with
    | Ok (summary, category_summary) =>
        Summarised df summary category_summary
    | Raise e => Crashed e
    end.

(** The requests of a run, in the order of the two loops: brand by brand,
    and title by title within a brand. *)
Definition requests (brand_names titles : list str) : list (str * str) :=
  brand_name ← brand_names;
  title ← titles;
  [(Text.strip (Text.is_space unicode_space) brand_name,
    Text.strip (Text.is_space unicode_space) title)].

(** The products of the requests, from request [n] on, up to the first page
    that fails to load. *)
Fixpoint collect (rs : list (str * str)) (n : nat) : list ProductRecord :=
  match rs with
  | [] => []
  | (user_brand_name, title) :: rest =>
      match site n (url user_brand_name title) with
      | GetFailed => []
      | shown =>
          get_product_info_on shown title user_brand_name ++
          collect rest (S n)
      end
  end.

End Main.

(** ** File names *)

Module Path.

(** The last index of a character of a class, from index [i] on, and
    [found] when there is none. *)
Fixpoint rfind_from (P : N → bool) (p : str) (i : nat) (found : option nat)
  : option nat :=
  match p with
  | [] => found
  | c :: p' => rfind_from P p' (S i) (if P c then Some i else found)
  end.

(** [p.rfind(c)]; [None] stands for -1. *)
Definition rfind (P : N → bool) (p : str) : option nat :=
  rfind_from P p 0 None.

(** [os.path.splitext(p)], for the separators of the platform: the
    extension starts at the last full stop, if that comes after the last
    separator and after a character of the name that is not a full stop. *)
Definition splitext (is_sep : N → bool) (p : str) : str * str :=
  let sepIndex := rfind is_sep p in
  let dotIndex := rfind (λ c, bool_decide (c = Str.full_stop)) p in
  match dotIndex with
  | None => (p, [])
  | Some dotIndex =>
      let filenameIndex := from_option S 0%nat sepIndex in
      if bool_decide (filenameIndex ≤ dotIndex)%nat &&
         bool_decide (Exists (λ c, c ≠ Str.full_stop)
                        (take (dotIndex - filenameIndex)
                           (drop filenameIndex p)))
      then (take dotIndex p, drop dotIndex p)
      else (p, [])
  end.

End Path.

(** The time of day that [datetime.now()] returns. *)
Record clock := { hour : N; minute : N; second : N }.

(** [now.strftime("%H%M%S")] *)
Definition strftime_HMS (now : clock) : str :=
  Format.two_digits (hour now) ++ Format.two_digits (minute now) ++
  Format.two_digits (second now).

(** [generate_unique_filename], for the files that exist and the time that
    the clock shows. *)
Definition generate_unique_filename (is_sep : N → bool)
    (path_exists : str → bool) (now : clock) (base_filename : str) : str :=
  if negb (path_exists base_filename) then base_filename
  else
    let '(base, ext) := Path.splitext is_sep base_filename in
    let timestamp := strftime_HMS now in
    base ++ Str.lit "_" ++ timestamp ++ ext.

(** ** The bar chart of a category *)

(** What [plot_bar_chart] draws: the brands on the axis, and the heights of
    the two bars of each. *)
Record chart := {
  ticks : list str;
  original_prices : list Qc;
  actual_prices : list Qc
}.

(** [Series.unique()]: the values in order of first appearance. *)
Definition unique (values : list str) : list str := first_seen ∅ values.

(** The height of a bar (lines 209-210 and 214-215): the average in the
    first row of the brand whose label contains the pattern, and 0 without
    such a row. *)
Definition bar_height (data : list SummaryRow.t) (pattern brand : str) : Qc :=
  match filter (λ row, SummaryRow.BrandName row = brand ∧
                       Text.contains pattern (SummaryRow.Metric row) = true)
          data with
  | [] => 0
  | row :: _ => SummaryRow.Avg row
  end.

Definition plot_bar_chart (data : list SummaryRow.t) : chart :=
  let brands := unique (SummaryRow.BrandName <$> data) in
  {| ticks := brands;
     original_prices :=
       (λ brand, bar_height data (Str.lit "Original Price") brand) <$> brands;
     actual_prices :=
       (λ brand, bar_height data (Str.lit "Actual Sale Price") brand)
         <$> brands |}.


(** What tells the rows of a summary apart: the category, the brand, and
    whether the label is that of the original price. *)
Definition row_key (row : SummaryRow.t) : str * str * bool :=
  (SummaryRow.Category row, SummaryRow.BrandName row,
   Text.contains (Str.lit "Original Price") (SummaryRow.Metric row)).

Module Example_chart.

Definition data : list SummaryRow.t :=
  [ stats_row (Str.lit "shirt") (Str.lit "acme") (metric_original 2)
      (Qc_of_Z 3) [Qc_of_Z 1];
    stats_row (Str.lit "shirt") (Str.lit "acme")
      (metric_actual (Some (Qc_of_Z 10))) (Qc_of_Z 2) [];
    stats_row (Str.lit "shirt") (Str.lit "zenith") (metric_original 1)
      (Qc_of_Z 5) [] ].

End Example_chart.

(** ** The report *)

(** What [create_docx_report] puts into the document: headings, tables as
    their rows of cell texts, and the picture of a chart, saved under its
    file name just before. *)
Inductive block :=
  | Heading (text : str) (level : nat)
  | Table (rows : list (list str))
  | Picture (filename : str) (drawn : chart).

Section Report.

(** [str(x)] for a number of the four numeric columns. *)
Variable str_of : Qc → str.

Definition header : list str :=
  [ Str.lit "Metric (Count or Rate)"; Str.lit "Max"; Str.lit "Min";
    Str.lit "Avg Max Min"; Str.lit "Avg" ].

(** The cells of the table row of a row of the summary (lines 253-258). *)
Definition cells (row : SummaryRow.t) : list str :=
  [ SummaryRow.Metric row; str_of (SummaryRow.Max row); str_of (SummaryRow.Min row);
    str_of (SummaryRow.AvgMaxMin row); str_of (SummaryRow.Avg row) ].

(** The heading and the table of a brand (lines 241-258). *)
Definition brand_blocks (category_data : list SummaryRow.t) (brand : str)
  : list block :=
  let brand_data :=
    filter (λ row, SummaryRow.BrandName row = brand) category_data in
  [ Heading (Str.lit "Brand: " ++ brand) 2;
    Table (header :: (cells <$> brand_data)) ].

(** The part of a category (lines 236-263). *)
Definition category_blocks (summary_df : list SummaryRow.t) (category : str)
  : list block :=
  let category_data :=
    filter (λ row, SummaryRow.Category row = category) summary_df in
  let brands := unique (SummaryRow.BrandName <$> category_data) in
  let chart_filename := Str.lit "chart_" ++ category ++ Str.lit ".png" in
  [ Heading (Str.lit "Category: " ++ category) 1 ] ++
  (brands ≫= brand_blocks category_data) ++
  [ Picture chart_filename (plot_bar_chart category_data) ].

(** [create_docx_report]: the document that it saves.  A frame built from
    no row has no column, and reading its column [Category] raises
    [KeyError]. *)
Definition create_docx_report (summary_df : list SummaryRow.t)
  : result (list block) :=
  match summary_df with
  | [] => Raise KeyError
  | _ =>
      Ok (Heading (Str.lit "Product Price Analysis Report") 0 ::
          (unique (SummaryRow.Category <$> summary_df)
             ≫= category_blocks summary_df))
  end.

End Report.

(** The rows of the tables of a document below their headers, in the order
    of the document. *)
Definition table_rows (doc : list block) : list (list str) :=
  doc ≫= λ b, match b with
              | Table (_ :: rows) => rows
              | _ => []
              end.

(** The charts of a document, in its order. *)
Definition pictures (doc : list block) : list (str * chart) :=
  doc ≫= λ b, match b with
              | Picture filename drawn => [(filename, drawn)]
              | _ => []
              end.

(** A record without any number: no price and no discount rate, as the
    record that stands for a page without products. *)
Definition blank (r : ProductRecord) : Prop :=
  OriginalPrice r = None ∧ DiscountRate r = None ∧ ActualSalePrice r = None.

#[global] Instance blank_dec r : Decision (blank r).
Proof. unfold blank. apply _. Defined.

(** What tells the rows of the category summary apart: the category, and
    whether the label is that of the original price. *)
Definition category_key (row : SummaryRow.t) : str * bool :=
  (SummaryRow.Category row,
   Text.contains (Str.lit "Original Price") (SummaryRow.Metric row)).

(** ** Facts about the parser *)

Section Parser_facts.

Variable unicode_decimal : N → option N.

Abbreviation digit := (decimal_digit unicode_decimal).

Lemma full_stop_no_digit : digit Str.full_stop = None.
Proof. reflexivity. Qed.

Lemma comma_outside_class : in_class unicode_decimal Str.comma = false.
Proof. reflexivity. Qed.

(** The second substitution of [extract_price] finds nothing to remove. *)
Lemma replace_comma_stripped text :
  replace_comma (re_sub_strip unicode_decimal text) =
  re_sub_strip unicode_decimal text.
Proof.
  unfold replace_comma, re_sub_strip.
  induction text as [|c text IH]; [done|].
  rewrite (filter_cons _ c text). destruct (decide _) as [Hc|Hc]; [|done].
  rewrite filter_cons, IH. rewrite decide_True; [done|].
  intros ->. by rewrite comma_outside_class in Hc.
Qed.

Lemma digits_cons c s :
  digits unicode_decimal (c :: s) =
  ((if digit c is Some _ then 1 else 0) + digits unicode_decimal s)%nat.
Proof.
  unfold digits. rewrite filter_cons.
  destruct (digit c); destruct (decide _) as [[? ?]|Hn]; simplify_eq; try done.
  destruct Hn. by eexists.
Qed.

Lemma full_stops_cons c s :
  full_stops (c :: s) =
  ((if decide (c = Str.full_stop) then 1 else 0) + full_stops s)%nat.
Proof. unfold full_stops. rewrite filter_cons. by destruct (decide _). Qed.

(** When [float] rejects a text over the class. *)
Lemma scan_float_None s m frac seen :
  Forall (λ c, in_class unicode_decimal c) s →
  scan_float unicode_decimal s m frac seen = None ↔
    (seen = false ∧ digits unicode_decimal s = 0%nat) ∨
    (2 ≤ full_stops s + (if frac is Some _ then 1 else 0))%nat.
Proof.
  intros Hs. revert m frac seen.
  induction Hs as [|c s Hc _ IH]; intros m frac seen; simpl.
  { unfold digits, full_stops. simpl.
    destruct seen, frac; simpl;
      (split; [intros H; try done; by left
              |intros [[H1 H2]|H]; try done; lia]). }
  rewrite digits_cons, full_stops_cons.
  destruct (digit c) as [d|] eqn:Hd.
  - rewrite IH.
    rewrite decide_False; [|intros ->; by rewrite full_stop_no_digit in Hd].
    destruct frac; simpl;
      (split; [intros [[H1 H2]|H]; try done; right; lia
              |intros [[H1 H2]|H]; try done; try lia; right; lia]).
  - unfold in_class in Hc. rewrite Hd in Hc.
    rewrite bool_decide_eq_false_2 in Hc by (by intros [??]).
    simpl in Hc. apply Is_true_true in Hc. rewrite Hc.
    apply bool_decide_eq_true_1 in Hc. rewrite decide_True by done.
    destruct frac as [k|]; simpl.
    + split; [intros _; right; lia|done].
    + rewrite IH. simpl.
      split; (intros [[H1 H2]|H]; [left; split; [done|lia]|right; lia]).
Qed.

Lemma re_sub_strip_class text :
  Forall (λ c, in_class unicode_decimal c) (re_sub_strip unicode_decimal text).
Proof.
  unfold re_sub_strip. apply Forall_forall. by intros c [? _]%list_elem_of_filter.
Qed.

Lemma digits_stripped text :
  digits unicode_decimal (re_sub_strip unicode_decimal text) =
  digits unicode_decimal text.
Proof.
  unfold digits, re_sub_strip. rewrite list_filter_filter. f_equal.
  apply list_filter_iff. intros c. unfold in_class. split; [by intros [? _]|].
  intros Hc. split; [done|]. by rewrite bool_decide_eq_true_2.
Qed.

Lemma full_stops_stripped text :
  full_stops (re_sub_strip unicode_decimal text) = full_stops text.
Proof.
  unfold full_stops, re_sub_strip. rewrite list_filter_filter. f_equal.
  apply list_filter_iff. intros c. split; [by intros [? _]|].
  intros ->. done.
Qed.

Lemma extract_price_None text :
  extract_price unicode_decimal text = None ↔
  digits unicode_decimal text = 0%nat ∨ (2 ≤ full_stops text)%nat.
Proof.
  unfold extract_price, float_of_str. rewrite replace_comma_stripped.
  pose proof (scan_float_None _ 0%N None false (re_sub_strip_class text)) as H.
  rewrite digits_stripped, full_stops_stripped, Nat.add_0_r in H.
  destruct (scan_float _ _ _ _ _) as [[m k]|]; simpl.
  - split; [done|]. intros Hv.
    assert (Some (m, k) = None) as Habs; [|done].
    apply H. destruct Hv; [by left|by right].
  - split; [|done]. intros _. destruct H as [H _].
    destruct (H eq_refl) as [[_ ?]|?]; [by left|by right].
Qed.

End Parser_facts.

(** ** Facts about the extractor *)

Section Extractor_facts.

Variable unicode_decimal : N → option N.
Variables category user_brand_name : str.

Abbreviation body := (loop_body unicode_decimal category user_brand_name).
Abbreviation loop := (for_each unicode_decimal category user_brand_name).
Abbreviation sale_of := (card_sale_price unicode_decimal).
Abbreviation iteration :=
  (iteration unicode_decimal category user_brand_name).

Lemma scan_price_elements_bound price_elements sale :
  ∃ found,
    scan_price_elements unicode_decimal price_elements (Some sale) = Ok found.
Proof.
  induction price_elements as [|price_el rest IH]; simpl; [by eexists|].
  case_bool_decide; [done|].
  destruct (_ && _); [by eexists|done].
Qed.

Lemma loop_body_iteration element σ : iteration element σ (body element σ).
Proof.
  assert (Hemit : ∀ name orig disc,
    sale_of element ∉ unique_prices σ →
    (disc = None → orig = sale_of element) →
    iteration element σ
      (Ok {| products := products σ ++
               [ Build_ProductRecord category user_brand_name name orig disc
                   (sale_of element) ];
             unique_prices := unique_prices σ ∪ {[ sale_of element ]};
             sale_price_text :=
               from_option Some (sale_price_text σ)
                 (Driver.find_sale_price element) |})).
  { intros name orig disc Hnew Horig. by apply iteration_emit. }
  revert Hemit. unfold loop_body.
  generalize (iteration_skip unicode_decimal category user_brand_name element σ)
    (iteration_raise unicode_decimal category user_brand_name element σ).
  unfold card_sale_price.
  destruct (Driver.find_sale_price element) as [t|]; simpl;
    intros Hskip Hraise Hemit.
  - case_bool_decide as Hseen; [by apply Hskip|].
    destruct (Driver.find_discount_rate element ≫= _) as [d|]; simpl.
    + destruct (scan_price_elements_bound
                  (Driver.find_price_elements element) t) as [found ->].
      simpl. by apply Hemit.
    + by apply Hemit.
  - case_bool_decide as Hseen; [by apply Hskip|].
    destruct (Driver.find_discount_rate element ≫= _) as [d|]; simpl.
    + destruct (scan_price_elements _ _ _) as [found|e]; simpl.
      * by apply Hemit.
      * by apply Hraise.
    + by apply Hemit.
Qed.

Lemma loop_discount_rule product_elements σ :
  Forall discount_rule (products σ) →
  Forall discount_rule (loop product_elements σ).
Proof.
  revert σ. induction product_elements as [|element rest IH]; intros σ Hσ;
    simpl; [done|].
  destruct (loop_body_iteration element σ) as [Hseen|r Hnew Hr _ _ Hrule|];
    [apply IH; simpl..|]; try done.
  apply Forall_app. split; [done|]. by apply Forall_singleton.
Qed.

Lemma loop_first_seen product_elements σ :
  (ActualSalePrice <$> loop product_elements σ) `prefix_of`
    (ActualSalePrice <$> products σ) ++
    first_seen (unique_prices σ) (sale_of <$> product_elements).
Proof.
  revert σ. induction product_elements as [|element rest IH]; intros σ;
    simpl.
  { by rewrite app_nil_r. }
  destruct (loop_body_iteration element σ) as [Hseen|r Hnew Hr _ _ _|e Hnew _].
  - rewrite decide_True by done. by use_IH IH.
  - rewrite decide_False by done. use_IH IH.
    rewrite fmap_app, <-app_assoc in IH0. simpl in IH0. by rewrite Hr in IH0.
  - by apply prefix_app_r.
Qed.

Lemma loop_first_seen_all product_elements σ :
  Forall (λ element, is_Some (Driver.find_sale_price element))
    product_elements →
  ActualSalePrice <$> loop product_elements σ =
    (ActualSalePrice <$> products σ) ++
    first_seen (unique_prices σ) (sale_of <$> product_elements).
Proof.
  intros Hall. revert σ.
  induction Hall as [|element rest [t Ht] _ IH]; intros σ; simpl.
  { by rewrite app_nil_r. }
  destruct (loop_body_iteration element σ) as [Hseen|r Hnew Hr _ _ _|e _ Hnone].
  - rewrite decide_True by done. by use_IH IH.
  - rewrite decide_False by done. use_IH IH.
    rewrite fmap_app, <-app_assoc in IH0. simpl in IH0. by rewrite Hr in IH0.
  - congruence.
Qed.

(** The scan for the original price finds nothing when no price span both
    differs from the sale-price text and carries the currency marker. *)
Lemma scan_price_elements_not_found price_elements sale :
  Forall (λ s, ¬ (text s ≠ sale ∧ Str.won ∈ text s)) price_elements →
  scan_price_elements unicode_decimal price_elements (Some sale) = Ok None.
Proof.
  induction 1 as [|price_el rest Hno _ IH]; simpl; [done|].
  case_bool_decide; [done|].
  destruct (bool_decide (text price_el ≠ sale)) eqn:Hne;
    destruct (bool_decide (Str.won ∈ text price_el)) eqn:Hwon; simpl;
    try done.
  destruct Hno. split; by eapply bool_decide_eq_true_1.
Qed.

(** A page of one such card with a discount rate: the record has no
    original price, whatever the sale price is. *)
Lemma get_product_info_not_found element sale rate :
  Driver.find_sale_price element = Some sale →
  Driver.find_discount_rate element
    ≫= extract_discount_rate unicode_decimal = Some rate →
  Forall (λ s, ¬ (text s ≠ sale ∧ Str.won ∈ text s)) (price_spans element) →
  get_product_info unicode_decimal [element] category user_brand_name =
    [ {| Category := category; BrandName := user_brand_name;
         ProductName := default (Str.lit "N/A") (Driver.find_name element);
         OriginalPrice := None;
         DiscountRate := Some rate;
         ActualSalePrice := extract_price unicode_decimal sale |} ].
Proof.
  intros Hsale Hrate Hno. unfold get_product_info. simpl.
  unfold loop_body. rewrite Hsale, Hrate. simpl.
  unfold Driver.find_price_elements.
  by rewrite (scan_price_elements_not_found _ _ Hno).
Qed.

End Extractor_facts.

Lemma first_seen_fresh `{Countable A} (seen : gset A) (l : list A) x :
  x ∈ first_seen seen l → (x ∉ seen) ∧ x ∈ l.
Proof.
  revert seen. induction l as [|y l IH]; intros seen; simpl.
  { by intros ?%elem_of_nil. }
  destruct (decide (y ∈ seen)) as [Hy|Hy].
  - intros Hx. destruct (IH _ Hx). split; [done|]. by right.
  - intros Hx. apply elem_of_cons in Hx as [Heq|Hx].
    + subst x. split; [done|]. by left.
    + destruct (IH _ Hx) as [Hx' ?]. split; [|by right].
      intros ?. apply Hx', elem_of_union. by left.
Qed.

Lemma first_seen_NoDup `{Countable A} (seen : gset A) (l : list A) :
  NoDup (first_seen seen l).
Proof.
  revert seen. induction l as [|y l IH]; intros seen; simpl.
  { constructor. }
  destruct (decide (y ∈ seen)); [done|].
  constructor; [|done].
  intros [Hy _]%first_seen_fresh. set_solver.
Qed.

Lemma NoDup_prefix {A} (l k : list A) : l `prefix_of` k → NoDup k → NoDup l.
Proof. intros [k' ->] Hk. by apply NoDup_app in Hk as [? _]. Qed.

Lemma decimal_integer (m : N) : decimal m 0 = Qc_of_Z (Z.of_N m).
Proof. apply Qc_is_canon. unfold decimal. simpl. apply Qred_correct. Qed.

(** ** Facts about the aggregator *)

Section lex_le_facts.
Context `{Lexico A, !StrictOrder (@lexico A _), !TrichotomyT (@lexico A _)}.

#[global] Instance lex_le_preorder : PreOrder (@lex_le A _).
Proof.
  split.
  - intros a. by left.
  - intros a b c [->|Hab] [->|Hbc]; try (by left); try (by right).
    right. by trans b.
Qed.

#[global] Instance lex_le_antisymm : AntiSymm (=) (@lex_le A _).
Proof.
  intros a b [->|Hab] [Heq|Hba]; try done.
  destruct (irreflexivity lexico a). by trans b.
Qed.

#[global] Instance lex_le_total : Total (@lex_le A _).
Proof.
  intros a b. destruct (trichotomyT lexico a b) as [[Hlt|Heq]|Hgt].
  - left. by right.
  - left. by left.
  - right. by right.
Qed.

End lex_le_facts.

Module Series_facts.

Lemma dropna_present (field : ProductRecord → option Qc) group :
  Series.dropna (field <$> group) = present field group.
Proof.
  unfold Series.dropna, present.
  induction group as [|r group IH]; csimpl; [done|].
  rewrite IH. by destruct (field r).
Qed.

Lemma max_maximum x xs : is_maximum (Series.max x xs) (x :: xs).
Proof.
  unfold Series.max. revert x.
  induction xs as [|y ys IH]; intros x; simpl.
  { split; [by left|]. by intros v ->%list_elem_of_singleton. }
  destruct (IH (Series.Qc_max x y)) as [Hin Hub].
  assert (x ≤ Series.Qc_max x y ∧ y ≤ Series.Qc_max x y ∧
          (Series.Qc_max x y = x ∨ Series.Qc_max x y = y)) as (Hx & Hy & Hor).
  { unfold Series.Qc_max. destruct (decide (x ≤ y)) as [Hle|Hnle].
    - by auto.
    - repeat split; [done| |by left].
      destruct (total Qcle x y); done. }
  split.
  - apply elem_of_cons in Hin as [Hin|Hin].
    + rewrite Hin. destruct Hor as [->| ->]; [by left|by right; left].
    + by right; right.
  - intros v Hv. apply elem_of_cons in Hv as [->|Hv].
    + trans (Series.Qc_max x y); [done|]. apply Hub. by left.
    + apply elem_of_cons in Hv as [->|Hv].
      * trans (Series.Qc_max x y); [done|]. apply Hub. by left.
      * apply Hub. by right.
Qed.

Lemma min_minimum x xs : is_minimum (Series.min x xs) (x :: xs).
Proof.
  unfold Series.min. revert x.
  induction xs as [|y ys IH]; intros x; simpl.
  { split; [by left|]. by intros v ->%list_elem_of_singleton. }
  destruct (IH (Series.Qc_min x y)) as [Hin Hlb].
  assert (Series.Qc_min x y ≤ x ∧ Series.Qc_min x y ≤ y ∧
          (Series.Qc_min x y = x ∨ Series.Qc_min x y = y)) as (Hx & Hy & Hor).
  { unfold Series.Qc_min. destruct (decide (x ≤ y)) as [Hle|Hnle].
    - by auto.
    - repeat split; [|done|by right].
      destruct (total Qcle x y); done. }
  split.
  - apply elem_of_cons in Hin as [Hin|Hin].
    + rewrite Hin. destruct Hor as [->| ->]; [by left|by right; left].
    + by right; right.
  - intros v Hv. apply elem_of_cons in Hv as [->|Hv].
    + trans (Series.Qc_min x y); [|done]. apply Hlb. by left.
    + apply elem_of_cons in Hv as [->|Hv].
      * trans (Series.Qc_min x y); [|done]. apply Hlb. by left.
      * apply Hlb. by right.
Qed.

Lemma maximum_unique m m' values values' :
  values ≡ₚ values' → is_maximum m values → is_maximum m' values' → m = m'.
Proof.
  intros Hp [Hin Hub] [Hin' Hub'].
  apply (anti_symm Qcle).
  - apply Hub'. by rewrite <-Hp.
  - apply Hub. by rewrite Hp.
Qed.

Lemma minimum_unique m m' values values' :
  values ≡ₚ values' → is_minimum m values → is_minimum m' values' → m = m'.
Proof.
  intros Hp [Hin Hlb] [Hin' Hlb'].
  apply (anti_symm Qcle).
  - apply Hlb. by rewrite Hp.
  - apply Hlb'. by rewrite <-Hp.
Qed.

Lemma foldl_plus_perm (s s' : list Qc) :
  s ≡ₚ s' → ∀ a, foldl Qcplus a s = foldl Qcplus a s'.
Proof.
  induction 1 as [|x s s' _ IH|x y s|s s' s'' _ IH1 _ IH2]; intros a; simpl.
  - done.
  - apply IH.
  - f_equal. ring.
  - by rewrite IH1.
Qed.

Lemma mean_perm x xs y ys :
  x :: xs ≡ₚ y :: ys → Series.mean x xs = Series.mean y ys.
Proof.
  intros Hp. unfold Series.mean, Series.sum, Series.len.
  by rewrite (foldl_plus_perm _ _ Hp), (Permutation_length Hp).
Qed.

End Series_facts.

Section Aggregator_facts.

Implicit Types (df group : list ProductRecord) (row : SummaryRow.t).

Lemma dropna_perm (field : ProductRecord → option Qc) group group' :
  group ≡ₚ group' →
  Series.dropna (field <$> group) ≡ₚ Series.dropna (field <$> group').
Proof. intros Hp. unfold Series.dropna. by rewrite Hp. Qed.

(** A case analysis on a series gives the same result on a permutation of
    the series when the non-empty case does. *)
Lemma series_case_perm {B} (s s' : list Qc) (a : B) (f f' : Qc → list Qc → B) :
  s ≡ₚ s' →
  (∀ x xs y ys, s = x :: xs → s' = y :: ys → f x xs = f' y ys) →
  match s with [] => a | x :: xs => f x xs end =
  match s' with [] => a | y :: ys => f' y ys end.
Proof.
  intros Hp Hf. destruct s as [|x xs], s' as [|y ys]; [done| | |by apply Hf].
  - by apply Permutation_nil_l in Hp.
  - by apply Permutation_nil_r in Hp.
Qed.

Lemma stats_row_perm category brand_name metric x xs y ys :
  x :: xs ≡ₚ y :: ys →
  stats_row category brand_name metric x xs =
  stats_row category brand_name metric y ys.
Proof.
  intros Hp. unfold stats_row.
  rewrite (Series_facts.maximum_unique _ _ _ _ Hp
             (Series_facts.max_maximum x xs) (Series_facts.max_maximum y ys)).
  rewrite (Series_facts.minimum_unique _ _ _ _ Hp
             (Series_facts.min_minimum x xs) (Series_facts.min_minimum y ys)).
  by rewrite (Series_facts.mean_perm _ _ _ _ Hp).
Qed.

Lemma brand_rows_perm category brand_name group group' :
  group ≡ₚ group' →
  brand_rows category brand_name group = brand_rows category brand_name group'.
Proof.
  intros Hp. unfold brand_rows.
  pose proof (dropna_perm OriginalPrice _ _ Hp) as Hori.
  pose proof (dropna_perm ActualSalePrice _ _ Hp) as Hact.
  pose proof (dropna_perm DiscountRate _ _ Hp) as Hdis.
  f_equal.
  - apply series_case_perm; [done|]. intros x xs y ys Hx Hy.
    rewrite (Permutation_length Hori). f_equal.
    apply stats_row_perm. by rewrite <-Hx, <-Hy.
  - apply series_case_perm; [done|]. intros x xs y ys Hx Hy.
    rewrite (series_case_perm _ _ _ _ (λ d ds, Some (Series.mean d ds)) Hdis).
    + f_equal. apply stats_row_perm. by rewrite <-Hx, <-Hy.
    + intros d ds d' ds' Hd Hd'. f_equal.
      apply Series_facts.mean_perm. by rewrite <-Hd, <-Hd'.
Qed.

Lemma nanmean_perm (field : ProductRecord → option Qc) group group' :
  group ≡ₚ group' →
  Series.nanmean (field <$> group) = Series.nanmean (field <$> group').
Proof.
  intros Hp. unfold Series.nanmean.
  apply series_case_perm; [by apply dropna_perm|].
  intros x xs y ys Hx Hy. f_equal. apply Series_facts.mean_perm.
  rewrite <-Hx, <-Hy. by apply dropna_perm.
Qed.

Lemma category_body_perm category group group' st :
  group ≡ₚ group' →
  category_body category group st = category_body category group' st.
Proof.
  intros Hp. unfold category_body. destruct st as [category_stats brand_name].
  pose proof (dropna_perm OriginalPrice _ _ Hp) as Hori.
  pose proof (dropna_perm ActualSalePrice _ _ Hp) as Hact.
  rewrite (series_case_perm _ _ _ _
             (λ y ys,
                (category_stats ++
                   [stats_row category (all_label category)
                      (metric_original
                         (length (Series.dropna (OriginalPrice <$> group'))))
                      y ys],
                 Some (all_label category))) Hori).
  2:{ intros x xs y ys Hx Hy. rewrite (Permutation_length Hori).
      do 3 f_equal. apply stats_row_perm. by rewrite <-Hx, <-Hy. }
  destruct (match Series.dropna (OriginalPrice <$> group') with
            | [] => _ | _ :: _ => _ end) as [stats bn].
  apply series_case_perm; [done|]. intros x xs y ys Hx Hy.
  rewrite (nanmean_perm DiscountRate _ _ Hp).
  assert (bool_decide (DiscountRate <$> group = []) =
          bool_decide (DiscountRate <$> group' = [])) as ->.
  { apply bool_decide_ext.
    split; intros Hnil%fmap_nil_inv; subst.
    - by apply Permutation_nil_l in Hp as <-.
    - by apply Permutation_nil_r in Hp as ->. }
  destruct bn; [|done]. do 4 f_equal.
  apply stats_row_perm. by rewrite <-Hx, <-Hy.
Qed.

Section groupby_facts.
Context `{EqDecision K, Lexico K, !StrictOrder (@lexico K _),
          !TrichotomyT (@lexico K _)}.
Variable key : ProductRecord → K.

Lemma elem_of_group_keys df k : k ∈ group_keys key df ↔ k ∈ key <$> df.
Proof.
  unfold group_keys. by rewrite merge_sort_Permutation, elem_of_remove_dups.
Qed.

Lemma group_keys_perm df df' :
  df ≡ₚ df' → group_keys key df = group_keys key df'.
Proof.
  intros Hp. unfold group_keys.
  apply (Sorted_unique lex_le); [apply Sorted_merge_sort; apply _..|].
  rewrite !merge_sort_Permutation.
  apply NoDup_Permutation; [apply NoDup_remove_dups..|].
  intros k. by rewrite !elem_of_remove_dups, Hp.
Qed.

Lemma elem_of_groupby df k group :
  (k, group) ∈ groupby key df ↔
  k ∈ key <$> df ∧ group = filter (λ r, key r = k) df.
Proof.
  unfold groupby. rewrite list_elem_of_fmap. split.
  - intros (k' & [= -> ->] & Hk). by rewrite <-elem_of_group_keys.
  - intros [Hk ->]. exists k. by rewrite elem_of_group_keys.
Qed.

Lemma groupby_perm df df' :
  df ≡ₚ df' →
  Forall2 (λ g g', g.1 = g'.1 ∧ g.2 ≡ₚ g'.2) (groupby key df) (groupby key df').
Proof.
  intros Hp. unfold groupby. rewrite <-(group_keys_perm _ _ Hp).
  apply Forall2_fmap, Forall_Forall2_diag, Forall_forall.
  intros k _. simpl. split; [done|]. by rewrite Hp.
Qed.

End groupby_facts.

Lemma brand_loop_perm groups groups' :
  Forall2 (λ g g', g.1 = g'.1 ∧ g.2 ≡ₚ g'.2) groups groups' →
  brand_loop groups = brand_loop groups'.
Proof.
  unfold brand_loop. generalize (@nil SummaryRow.t, @None str).
  intros acc Hg. revert acc.
  induction Hg as [|[[c b] g] [k' g'] gs gs' [Hk Hp] _ IH]; intros acc;
    [done|].
  simpl in Hk, Hp. subst k'. cbn [foldl].
  assert (brand_body acc (c, b, g) = brand_body acc (c, b, g')) as ->;
    [|apply IH].
  destruct acc as [summary bn]. simpl. by rewrite (brand_rows_perm _ _ _ _ Hp).
Qed.

Lemma category_loop_perm groups groups' st :
  Forall2 (λ g g', g.1 = g'.1 ∧ g.2 ≡ₚ g'.2) groups groups' →
  category_loop groups st = category_loop groups' st.
Proof.
  intros Hg. revert st.
  induction Hg as [|[c g] [c' g'] gs gs' [Hk Hp] _ IH]; intros st; [done|].
  simpl in Hk, Hp. subst c'. simpl.
  rewrite (category_body_perm _ _ _ _ Hp).
  destruct (category_body c g' st); simpl; [apply IH|done].
Qed.

(** *** The rows of the two loops *)

Lemma stats_row_summarises category brand_name metric x xs :
  summarises (stats_row category brand_name metric x xs) (x :: xs).
Proof.
  unfold summarises. simpl. split; [done|].
  split; [apply Series_facts.max_maximum|].
  split; [apply Series_facts.min_minimum|done].
Qed.

Lemma elem_of_brand_rows category brand_name group row :
  row ∈ brand_rows category brand_name group →
  SummaryRow.BrandName row = brand_name ∧ row_of_group category group row.
Proof.
  unfold brand_rows, row_of_group. rewrite !Series_facts.dropna_present.
  intros [Hrow|Hrow]%elem_of_app.
  - destruct (present OriginalPrice group) as [|x xs] eqn:Hx;
      [by apply elem_of_nil in Hrow|].
    apply list_elem_of_singleton in Hrow as ->.
    repeat split. exists OriginalPrice. split; [left; split; [done|by eexists]|].
    rewrite Hx. apply stats_row_summarises.
  - destruct (present ActualSalePrice group) as [|x xs] eqn:Hx;
      [by apply elem_of_nil in Hrow|].
    apply list_elem_of_singleton in Hrow as ->.
    repeat split. exists ActualSalePrice. split; [right; split; [done|by eexists]|].
    rewrite Hx. apply stats_row_summarises.
Qed.

Lemma brand_loop_rows groups summary brand_name row :
  brand_loop groups = (summary, brand_name) →
  row ∈ summary →
  ∃ category brand group,
    (category, brand, group) ∈ groups ∧
    row ∈ brand_rows category brand group.
Proof.
  unfold brand_loop.
  assert (∀ acc,
    row ∈ (foldl brand_body acc groups).1 →
    row ∈ acc.1 ∨
    ∃ category brand group,
      (category, brand, group) ∈ groups ∧
      row ∈ brand_rows category brand group) as Hgen.
  { induction groups as [|[[c b] g] gs IH]; intros acc; simpl; [by left|].
    destruct acc as [acc bn]. intros Hrow.
    apply IH in Hrow as [Hrow|(c' & b' & g' & Hin & Hrow)]; simpl in *.
    - apply elem_of_app in Hrow as [Hrow|Hrow]; [by left|].
      right. exists c, b, g. split; [by left|done].
    - right. exists c', b', g'. split; [by right|done]. }
  intros Heq Hrow. specialize (Hgen ([], None)). rewrite Heq in Hgen.
  destruct (Hgen Hrow) as [Hnil|?]; [by apply elem_of_nil in Hnil|done].
Qed.

Lemma category_body_rows category group st st' row :
  category_body category group st = Ok st' →
  row ∈ st'.1 →
  row ∈ st.1 ∨ row_of_group category group row.
Proof.
  unfold category_body, row_of_group. destruct st as [stats bn].
  rewrite !Series_facts.dropna_present.
  destruct (present OriginalPrice group) as [|x xs] eqn:Hx;
    destruct (present ActualSalePrice group) as [|y ys] eqn:Hy; simpl.
  - intros [= <-]. by left.
  - destruct bn as [b|]; [|done]. intros [= <-]. simpl.
    intros [Hrow| ->%list_elem_of_singleton]%elem_of_app; [by left|].
    right. split; [done|]. exists ActualSalePrice. split; [right; split; [done|by eexists]|].
    rewrite Hy. apply stats_row_summarises.
  - intros [= <-]. simpl.
    intros [Hrow| ->%list_elem_of_singleton]%elem_of_app; [by left|].
    right. split; [done|]. exists OriginalPrice. split; [left; split; [done|by eexists]|].
    rewrite Hx. apply stats_row_summarises.
  - intros [= <-]. simpl.
    intros [[Hrow| ->%list_elem_of_singleton]%elem_of_app
           | ->%list_elem_of_singleton]%elem_of_app; [by left| |].
    + right. split; [done|]. exists OriginalPrice. split; [left; split; [done|by eexists]|].
      rewrite Hx. apply stats_row_summarises.
    + right. split; [done|]. exists ActualSalePrice. split; [right; split; [done|by eexists]|].
      rewrite Hy. apply stats_row_summarises.
Qed.

Lemma category_loop_rows groups st st' row :
  category_loop groups st = Ok st' →
  row ∈ st'.1 →
  row ∈ st.1 ∨
  ∃ category group, (category, group) ∈ groups ∧
                    row_of_group category group row.
Proof.
  revert st. induction groups as [|[c g] gs IH]; intros st; simpl.
  { intros [= <-]. by left. }
  destruct (category_body c g st) as [st1|e] eqn:Hbody; simpl; [|done].
  intros Hloop Hrow.
  destruct (IH _ Hloop Hrow) as [Hrow1|(c' & g' & Hin & Hfrom)].
  - destruct (category_body_rows _ _ _ _ _ Hbody Hrow1) as [?|Hfrom];
      [by left|].
    right. exists c, g. split; [by left|done].
  - right. exists c', g'. split; [by right|done].
Qed.

Lemma sort_values_rows rows sorted row :
  sort_values_by_category rows = Ok sorted → row ∈ sorted ↔ row ∈ rows.
Proof.
  unfold sort_values_by_category. destruct rows as [|r rows]; [done|].
  intros [= <-]. by rewrite merge_sort_Permutation.
Qed.

(** *** The labels of the rows *)

Lemma brand_rows_metric category brand_name group row :
  row ∈ brand_rows category brand_name group → brand_metric group row.
Proof.
  unfold brand_rows, brand_metric. rewrite !Series_facts.dropna_present.
  intros [Hrow|Hrow]%elem_of_app.
  - destruct (present OriginalPrice group) as [|x xs];
      [by apply elem_of_nil in Hrow|].
    apply list_elem_of_singleton in Hrow as ->. by left.
  - destruct (present ActualSalePrice group) as [|x xs];
      [by apply elem_of_nil in Hrow|].
    apply list_elem_of_singleton in Hrow as ->. right. simpl.
    by destruct (present DiscountRate group).
Qed.

Lemma category_body_labels category group st st' row :
  category_body category group st = Ok st' →
  row ∈ st'.1 →
  row ∈ st.1 ∨
  (SummaryRow.Category row = category ∧ category_label category group row ∧
   category_metric group row).
Proof.
  unfold category_body, category_label, category_metric, Series.nanmean.
  destruct st as [stats bn]. rewrite !Series_facts.dropna_present.
  assert (bool_decide (DiscountRate <$> group = []) = bool_decide (group = []))
    as ->.
  { apply bool_decide_ext. split; [apply fmap_nil_inv|by intros ->]. }
  destruct (present OriginalPrice group) as [|x xs] eqn:Hx;
    destruct (present ActualSalePrice group) as [|y ys] eqn:Hy; simpl.
  - intros [= <-]. by left.
  - destruct bn as [b|]; [|done]. intros [= <-]. simpl.
    intros [Hrow| ->%list_elem_of_singleton]%elem_of_app; [by left|].
    right. split; [done|]. split; [done|]. right. simpl.
    by destruct (bool_decide (group = [])).
  - intros [= <-]. simpl.
    intros [Hrow| ->%list_elem_of_singleton]%elem_of_app; [by left|].
    right. split; [done|]. split; [done|]. by left.
  - intros [= <-]. simpl.
    intros [[Hrow| ->%list_elem_of_singleton]%elem_of_app
           | ->%list_elem_of_singleton]%elem_of_app; [by left| |].
    + right. split; [done|]. split; [done|]. by left.
    + right. split; [done|]. split; [done|]. right. simpl.
      by destruct (bool_decide (group = [])).
Qed.

Lemma category_loop_labels groups st st' row :
  category_loop groups st = Ok st' →
  row ∈ st'.1 →
  row ∈ st.1 ∨
  ∃ category group,
    (category, group) ∈ groups ∧ SummaryRow.Category row = category ∧
    category_label category group row ∧ category_metric group row.
Proof.
  revert st. induction groups as [|[c g] gs IH]; intros st; simpl.
  { intros [= <-]. by left. }
  destruct (category_body c g st) as [st1|e] eqn:Hbody; simpl; [|done].
  intros Hloop Hrow.
  destruct (IH _ Hloop Hrow) as [Hrow1|(c' & g' & Hin & Hfrom)].
  - destruct (category_body_labels _ _ _ _ _ Hbody Hrow1) as [?|Hfrom];
      [by left|].
    right. exists c, g. split; [by left|done].
  - right. exists c', g'. split; [by right|done].
Qed.

(** The rows of the brand summary embed the mean of the discount rates that
    are present in their group, and 0 when there is none.  The rows of the
    category summary carry the label of their category when the category
    has an original price, and embed the mean of the discount rates when
    there is one. *)
Lemma calculate_summary_stats_labels df summary category_summary :
  calculate_summary_stats df = Ok (summary, category_summary) →
  (∀ row, row ∈ summary →
     brand_metric
       (filter (λ r, Category r = SummaryRow.Category row ∧
                     BrandName r = SummaryRow.BrandName row) df) row) ∧
  (∀ row, row ∈ category_summary →
     let group := filter (λ r, Category r = SummaryRow.Category row) df in
     category_label (SummaryRow.Category row) group row ∧
     category_metric group row).
Proof.
  unfold calculate_summary_stats.
  destruct (brand_loop _) as [summary' brand_name] eqn:Hbrand.
  destruct (category_loop _ _) as [[stats bn]|e] eqn:Hcat; simpl; [|done].
  destruct (sort_values_by_category stats) as [sorted|e] eqn:Hsort; simpl;
    [|done].
  intros [= <- <-]. split.
  - intros row Hrow.
    destruct (brand_loop_rows _ _ _ _ Hbrand Hrow) as (c & b & g & Hin & Hg).
    apply elem_of_groupby in Hin as [_ ->].
    pose proof (elem_of_brand_rows _ _ _ _ Hg) as (<- & <- & _).
    apply brand_rows_metric in Hg.
    by rewrite (list_filter_iff _ (λ r, (Category r, BrandName r) =
                                        (SummaryRow.Category row, SummaryRow.BrandName row)))
      by (intros r; split; [by intros [-> ->]|by intros [= -> ->]]).
  - intros row Hrow. rewrite (sort_values_rows _ _ _ Hsort) in Hrow.
    destruct (category_loop_labels _ _ _ _ Hcat Hrow)
      as [Hnil|(c & g & Hin & <- & Hlabel & Hmetric)];
      [by apply elem_of_nil in Hnil|].
    by apply elem_of_groupby in Hin as [_ ->].
Qed.

(** *** When the aggregator raises *)

Lemma priced_has_price group : priced group ↔ Exists has_price group.
Proof.
  unfold priced, present, has_price. rewrite Exists_exists. split.
  - intros [Hne|Hne].
    + destruct (omap OriginalPrice group) as [|x xs] eqn:Hx; [done|].
      assert (x ∈ omap OriginalPrice group) as Hin by (rewrite Hx; by left).
      apply list_elem_of_omap in Hin as (r & Hr & Hfield).
      exists r. split; [done|]. left. by eexists.
    + destruct (omap ActualSalePrice group) as [|x xs] eqn:Hx; [done|].
      assert (x ∈ omap ActualSalePrice group) as Hin by (rewrite Hx; by left).
      apply list_elem_of_omap in Hin as (r & Hr & Hfield).
      exists r. split; [done|]. right. by eexists.
  - intros (r & Hr & [[x Hx]|[x Hx]]).
    + left. intros Hnil.
      assert (x ∈ omap OriginalPrice group) as Hin
        by (apply list_elem_of_omap; by exists r).
      rewrite Hnil in Hin. by apply elem_of_nil in Hin.
    + right. intros Hnil.
      assert (x ∈ omap ActualSalePrice group) as Hin
        by (apply list_elem_of_omap; by exists r).
      rewrite Hnil in Hin. by apply elem_of_nil in Hin.
Qed.

Lemma category_body_unpriced category group st :
  ¬ priced group → category_body category group st = Ok st.
Proof.
  unfold priced, category_body. rewrite !Series_facts.dropna_present.
  intros Hno. destruct st as [stats bn].
  destruct (present OriginalPrice group); [|by destruct Hno; left].
  destruct (present ActualSalePrice group); [done|by destruct Hno; right].
Qed.

Lemma category_loop_unpriced groups st :
  Forall (λ g, ¬ priced g.2) groups → category_loop groups st = Ok st.
Proof.
  induction 1 as [|[c g] gs Hg _ IH]; simpl; [done|].
  by rewrite category_body_unpriced.
Qed.

(** With [brand_name] bound, an iteration of the second loop does not raise;
    it keeps the rows it found and adds some when the group has a price. *)
Lemma category_body_bound category group stats b :
  ∃ stats' b',
    category_body category group (stats, Some b) = Ok (stats', Some b') ∧
    (stats ≠ [] ∨ priced group → stats' ≠ []).
Proof.
  unfold priced, category_body. rewrite !Series_facts.dropna_present.
  destruct (present OriginalPrice group) as [|x xs];
    destruct (present ActualSalePrice group) as [|y ys];
    do 2 eexists; (split; [reflexivity|]).
  - by intros [?|[?|?]].
  - intros _. by destruct stats.
  - intros _. by destruct stats.
  - intros _. by destruct stats.
Qed.

Lemma category_loop_bound groups stats b :
  ∃ stats' b',
    category_loop groups (stats, Some b) = Ok (stats', Some b') ∧
    (stats ≠ [] ∨ Exists (λ g, priced g.2) groups → stats' ≠ []).
Proof.
  revert stats b. induction groups as [|[c g] gs IH]; intros stats b.
  { do 2 eexists. split; [done|]. intros [?|Hex]; [done|].
    by apply Exists_nil in Hex. }
  cbn [category_loop].
  destruct (category_body_bound c g stats b) as (stats1 & b1 & -> & H1).
  cbn [mbind result_bind].
  destruct (IH stats1 b1) as (stats' & b' & -> & H').
  do 2 eexists. split; [done|].
  intros [?|[?|?]%Exists_cons]; apply H'; auto.
Qed.

Lemma brand_loop_bound groups :
  groups ≠ [] → is_Some (brand_loop groups).2.
Proof.
  unfold brand_loop.
  assert (∀ gs acc, is_Some acc.2 → is_Some (foldl brand_body acc gs).2)
    as Hkeep.
  { induction gs as [|[[c b] g] gs IH]; intros acc Hacc; simpl; [done|].
    apply IH. destruct acc. by eexists. }
  destruct groups as [|[[c b] g] gs]; [done|]. intros _.
  cbn [foldl]. apply Hkeep. by eexists.
Qed.

Lemma groupby_priced df :
  Exists has_price df ↔ Exists (λ g, priced g.2) (groupby Category df).
Proof.
  rewrite !Exists_exists. split.
  - intros (r & Hr & Hprice).
    exists (Category r, filter (λ r', Category r' = Category r) df).
    split; [apply elem_of_groupby; split; [by apply list_elem_of_fmap_2|done]|].
    simpl. apply priced_has_price, Exists_exists. exists r.
    split; [|done]. by apply list_elem_of_filter.
  - intros ([c g] & [_ ->]%elem_of_groupby & Hprice). simpl in Hprice.
    apply priced_has_price, Exists_exists in Hprice as (r & Hr & Hprice).
    apply list_elem_of_filter in Hr as [_ Hr]. by exists r.
Qed.

Lemma calculate_summary_stats_unpriced df :
  ¬ Exists has_price df → calculate_summary_stats df = Raise KeyError.
Proof.
  intros Hno. unfold calculate_summary_stats.
  destruct (brand_loop _) as [summary brand_name].
  rewrite category_loop_unpriced; [done|].
  apply Forall_forall. intros g Hg Hprice. apply Hno, groupby_priced.
  apply Exists_exists. by exists g.
Qed.

Lemma calculate_summary_stats_priced df :
  Exists has_price df →
  ∃ summary category_summary,
    calculate_summary_stats df = Ok (summary, category_summary).
Proof.
  intros Hprice. unfold calculate_summary_stats.
  assert (groupby (λ r, (Category r, BrandName r)) df ≠ []) as Hne.
  { apply Exists_exists in Hprice as (r & Hr & _).
    intros Hnil.
    assert ((Category r, BrandName r,
             filter (λ r', (Category r', BrandName r') =
                           (Category r, BrandName r)) df)
            ∈ groupby (λ r, (Category r, BrandName r)) df) as Hin.
    { apply elem_of_groupby. split; [|done].
      by apply (list_elem_of_fmap_2 (λ r, (Category r, BrandName r))). }
    rewrite Hnil in Hin. by apply elem_of_nil in Hin. }
  apply brand_loop_bound in Hne as [b Hb].
  destruct (brand_loop _) as [summary brand_name]. simpl in Hb. subst.
  destruct (category_loop_bound (groupby Category df) [] b)
    as (stats & b' & -> & Hstats).
  simpl. unfold sort_values_by_category.
  destruct stats as [|row stats].
  - destruct Hstats; [|done]. right. by apply groupby_priced.
  - simpl. by do 2 eexists.
Qed.

End Aggregator_facts.

(** ** The extractor: statements *)

(** C7. When the page has no card, [get_product_info] returns one record,
    the sentinel: its name is "X" and its three price fields are absent. *)
Theorem get_product_info_no_cards unicode_decimal category user_brand_name :
  get_product_info unicode_decimal [] category user_brand_name =
    [ {| Category := category; BrandName := user_brand_name;
         ProductName := Str.lit "X";
         OriginalPrice := None; DiscountRate := None;
         ActualSalePrice := None |} ].
Proof. reflexivity. Qed.

(** C2. In every record that [get_product_info] returns, an absent discount
    rate means that the original price is the sale price; so the two are
    both present or both absent. *)
Theorem get_product_info_discount_absent unicode_decimal product_elements
    category user_brand_name r :
  r ∈ get_product_info unicode_decimal product_elements category
        user_brand_name →
  DiscountRate r = None →
  OriginalPrice r = ActualSalePrice r ∧
  (is_Some (OriginalPrice r) ↔ is_Some (ActualSalePrice r)).
Proof.
  intros Hr Hnone.
  assert (OriginalPrice r = ActualSalePrice r) as Heq; [|by rewrite Heq].
  revert Hr Hnone. unfold get_product_info. case_bool_decide.
  - by intros ->%list_elem_of_singleton.
  - intros Hr.
    pose proof (loop_discount_rule unicode_decimal category user_brand_name
                  product_elements initial (Forall_nil_2 _)) as Hall.
    rewrite Forall_forall in Hall. by apply Hall.
Qed.

Lemma get_product_info_discount_absent_witness :
  ∃ r, r ∈ get_product_info ascii_only [Example.plain_card] Example.A
             Example.X ∧
       DiscountRate r = None ∧
       OriginalPrice r = ActualSalePrice r ∧
       is_Some (ActualSalePrice r).
Proof.
  eexists. split; [by left|]. split; [reflexivity|].
  split; [|by eexists].
  eapply (get_product_info_discount_absent ascii_only [Example.plain_card]);
    [by left|reflexivity].
Defined.

(** C3. The sale prices of the records of one call are pairwise different,
    an absent price counting as one value.  They are the first occurrences
    of the sale prices of the cards, in order: a card whose sale price was
    seen before adds nothing.  (The list stops early when the loop is left
    by an exception, which needs a card without a sale-price span.)  Two
    cards with the same sale-price text give one record. *)
Theorem get_product_info_dedup unicode_decimal category user_brand_name :
  (∀ product_elements,
     NoDup (ActualSalePrice <$>
              get_product_info unicode_decimal product_elements category
                user_brand_name)) ∧
  (∀ product_elements,
     product_elements ≠ [] →
     (ActualSalePrice <$>
        get_product_info unicode_decimal product_elements category
          user_brand_name) `prefix_of`
       first_seen ∅ (card_sale_price unicode_decimal <$> product_elements)) ∧
  (∀ product_elements,
     product_elements ≠ [] →
     Forall (λ element, is_Some (Driver.find_sale_price element))
       product_elements →
     ActualSalePrice <$>
       get_product_info unicode_decimal product_elements category
         user_brand_name =
       first_seen ∅ (card_sale_price unicode_decimal <$> product_elements)) ∧
  (∀ element1 element2 sale_text,
     Driver.find_sale_price element1 = Some sale_text →
     Driver.find_sale_price element2 = Some sale_text →
     length (get_product_info unicode_decimal [element1; element2] category
               user_brand_name) = 1%nat).
Proof.
  assert (Hprefix : ∀ product_elements,
     product_elements ≠ [] →
     (ActualSalePrice <$>
        get_product_info unicode_decimal product_elements category
          user_brand_name) `prefix_of`
       first_seen ∅ (card_sale_price unicode_decimal <$> product_elements)).
  { intros product_elements Hne. unfold get_product_info.
    rewrite bool_decide_eq_false_2 by done.
    apply (loop_first_seen _ _ _ _ initial). }
  assert (Hall : ∀ product_elements,
     product_elements ≠ [] →
     Forall (λ element, is_Some (Driver.find_sale_price element))
       product_elements →
     ActualSalePrice <$>
       get_product_info unicode_decimal product_elements category
         user_brand_name =
       first_seen ∅ (card_sale_price unicode_decimal <$> product_elements)).
  { intros product_elements Hne Hsale. unfold get_product_info.
    rewrite bool_decide_eq_false_2 by done.
    by rewrite (loop_first_seen_all _ _ _ _ initial). }
  split; [|split; [done|split; [done|]]].
  - intros [|element rest].
    + simpl. apply NoDup_singleton.
    + eapply NoDup_prefix; [by apply Hprefix|]. apply first_seen_NoDup.
  - intros element1 element2 sale_text H1 H2.
    rewrite <-(length_fmap ActualSalePrice), Hall; [|done|].
    + simpl. unfold card_sale_price. rewrite H1, H2.
      rewrite decide_False by set_solver.
      by rewrite decide_True by set_solver.
    + repeat constructor; by eexists.
Qed.

Lemma get_product_info_dedup_witness :
  length (get_product_info ascii_only
            [Example.discounted_card; Example.plain_card] Example.A
            Example.X) = 1%nat ∧
  ActualSalePrice <$>
    get_product_info ascii_only
      [Example.discounted_card; Example.plain_card; Example.full_card]
      Example.A Example.X =
    [ Some (decimal 9000 0); Some (decimal 8000 0) ].
Proof.
  destruct (get_product_info_dedup ascii_only Example.A Example.X)
    as (_ & _ & Hall & Hpair).
  split.
  - by apply (Hpair _ _ (Example.price "9,000")).
  - rewrite Hall; [reflexivity|done|].
    repeat constructor; by eexists.
Defined.

(** The early stop of the statement above: on the first card without a
    sale-price span the scan for the original price reads [sale_price_text]
    before any assignment, and the handler returns the records collected
    so far, here none, whatever cards follow. *)
Example get_product_info_unbound :
  get_product_info ascii_only [Example.badge_card; Example.plain_card]
    Example.A Example.X = [].
Proof. reflexivity. Qed.

(** C1, evaluated.  A card with a sale price and a discount rate on which no
    other price span carries the currency marker: the record has no original
    price, although its sale price is present. *)
Theorem get_product_info_original_not_found :
  get_product_info ascii_only [Example.discounted_card] Example.A Example.X =
    [ {| Category := Example.A; BrandName := Example.X;
         ProductName := Str.lit "shirt";
         OriginalPrice := None;
         DiscountRate := Some (decimal 10 0);
         ActualSalePrice := Some (decimal 9000 0) |} ].
Proof. reflexivity. Qed.

(** ** The parser: statements *)

(** C8. [extract_price] parses what is left of the text once every character
    that is neither a digit nor a full stop is removed, and yields nothing
    exactly when that rest is not a number: no digit, or two full stops or
    more.  [extract_discount_rate] computes the same.  The four examples.
    (Both parsers are functions: the result depends on the text alone.) *)
Theorem extract_price_spec unicode_decimal :
  (∀ text,
     extract_price unicode_decimal text =
     float_of_str unicode_decimal
       (filter (λ c, is_Some (decimal_digit unicode_decimal c) ∨
                     c = Str.full_stop) text)) ∧
  (∀ text,
     extract_price unicode_decimal text = None ↔
     digits unicode_decimal text = 0%nat ∨ (2 ≤ full_stops text)%nat) ∧
  (∀ text,
     extract_discount_rate unicode_decimal text =
     extract_price unicode_decimal text) ∧
  (unicode_decimal Str.won_sign = None →
   extract_price unicode_decimal (Str.won_sign :: Str.lit "12,345") =
     Some (Qc_of_Z 12345)) ∧
  extract_price unicode_decimal (Str.lit "free") = None ∧
  extract_price unicode_decimal [] = None ∧
  extract_discount_rate unicode_decimal (Str.lit "-15%") = Some (Qc_of_Z 15).
Proof.
  split; [|split; [apply extract_price_None|]].
  - intros text. unfold extract_price. rewrite replace_comma_stripped.
    unfold re_sub_strip. f_equal. apply list_filter_iff. intros c.
    unfold in_class. rewrite orb_True, !bool_decide_spec. reflexivity.
  - split; [|split; [|split; [reflexivity|split; [reflexivity|]]]].
    + intros text. unfold extract_discount_rate, extract_price.
      by rewrite replace_comma_stripped.
    + intros Hwon. unfold extract_price, re_sub_strip.
      rewrite filter_cons_False.
      * vm_compute. f_equal. by apply Qc_is_canon.
      * unfold in_class, decimal_digit. simpl. rewrite Hwon. by intros [].
    + vm_compute. f_equal. by apply Qc_is_canon.
Qed.

Lemma extract_price_spec_witness :
  ascii_only Str.won_sign = None ∧
  extract_price ascii_only (Str.won_sign :: Str.lit "12,345") =
    Some (Qc_of_Z 12345) ∧
  (extract_price ascii_only (Str.lit "1.2.3") = None ↔
   digits ascii_only (Str.lit "1.2.3") = 0%nat ∨
   (2 ≤ full_stops (Str.lit "1.2.3"))%nat).
Proof.
  destruct (extract_price_spec ascii_only) as (_ & Hnone & _ & Hwon & _).
  split; [reflexivity|]. split; [by apply Hwon|]. apply Hnone.
Defined.

(** ** The aggregator: statements *)



(** The two records of the end-to-end scenario: both tables, the second
    with the label of the category for brand. *)
Example calculate_summary_stats_scenario :
  ∃ summary category_summary,
    calculate_summary_stats [Example.discounted_record; Example.plain_record]
      = Ok (summary, category_summary) ∧
    Example.shown <$> summary =
      [ (Example.X, Str.lit "Original Price (2)", [200; 100; 150; 150]%Q);
        (Example.X, Str.lit "Actual Sale Price (10.00%)",
         [200; 90; 145; 145]%Q) ] ∧
    Example.shown <$> category_summary =
      [ (Str.lit "ALL (A)", Str.lit "Original Price (2)",
         [200; 100; 150; 150]%Q);
        (Str.lit "ALL (A)", Str.lit "Actual Sale Price (10.00%)",
         [200; 90; 145; 145]%Q) ].
Proof. do 2 eexists. split; [vm_compute; reflexivity|]. by vm_compute. Qed.

(** C4, evaluated.  The record that [get_product_info] returns for a card
    with a sale price and a discount rate but no other price has no original
    price.  On a frame of that record the row of the category summary does
    not carry the label of the category: its brand is the brand of the
    record.  When a category with original prices comes before, the row
    carries the label of that category. *)
Theorem calculate_summary_stats_stale_brand :
  (∃ summary category_summary,
     calculate_summary_stats
       (get_product_info ascii_only [Example.discounted_card] Example.A
          Example.X)
       = Ok (summary, category_summary) ∧
     (λ row, (SummaryRow.Category row, SummaryRow.BrandName row, SummaryRow.Metric row)) <$>
       category_summary =
       [ (Example.A, Example.X, Str.lit "Actual Sale Price (10.00%)") ] ∧
     all_label Example.A ≠ Example.X) ∧
  (∃ summary category_summary,
     calculate_summary_stats
       (get_product_info ascii_only [Example.plain_card] Example.A Example.X
        ++ get_product_info ascii_only [Example.discounted_card] Example.B
             Example.X)
       = Ok (summary, category_summary) ∧
     (λ row, (SummaryRow.Category row, SummaryRow.BrandName row, SummaryRow.Metric row)) <$>
       category_summary =
       [ (Example.A, Str.lit "ALL (A)", Str.lit "Original Price (1)");
         (Example.A, Str.lit "ALL (A)", Str.lit "Actual Sale Price (nan%)");
         (Example.B, Str.lit "ALL (A)",
          Str.lit "Actual Sale Price (10.00%)") ]).
Proof.
  split; (do 2 eexists; split; [vm_compute; reflexivity|]; by vm_compute).
Qed.

(** C5, evaluated.  One brand searched under two titles: the records of
    category A have no discount rate, the record of category B has one.
    The label of the sale-price row of A embeds 0.00 in the brand summary
    and nan in the category summary; the two labels of B embed the mean. *)
Theorem calculate_summary_stats_nan_label :
  ∃ summary category_summary,
    calculate_summary_stats
      (get_product_info ascii_only [Example.plain_card] Example.A Example.X
       ++ get_product_info ascii_only [Example.full_card] Example.B
            Example.X)
      = Ok (summary, category_summary) ∧
    (λ row, (SummaryRow.Category row, SummaryRow.Metric row)) <$> summary =
      [ (Example.A, Str.lit "Original Price (1)");
        (Example.A, Str.lit "Actual Sale Price (0.00%)");
        (Example.B, Str.lit "Original Price (1)");
        (Example.B, Str.lit "Actual Sale Price (20.00%)") ] ∧
    (λ row, (SummaryRow.Category row, SummaryRow.Metric row)) <$> category_summary =
      [ (Example.A, Str.lit "Original Price (1)");
        (Example.A, Str.lit "Actual Sale Price (nan%)");
        (Example.B, Str.lit "Original Price (1)");
        (Example.B, Str.lit "Actual Sale Price (20.00%)") ].
Proof. do 2 eexists. split; [vm_compute; reflexivity|]. by vm_compute. Qed.

(** C6. Every row of the two summaries is computed from the values that are
    present, for the price field of the row, in the group the row belongs
    to: the records of its category and brand for a row of the brand
    summary, the records of its category for a row of the category summary.
    There is such a value; [Max] is the greatest and [Min] the least of
    them; and [Avg Max Min] is half of their sum. *)
Theorem calculate_summary_stats_rows df summary category_summary :
  calculate_summary_stats df = Ok (summary, category_summary) →
  (∀ row, row ∈ summary →
     ∃ field, row_field row field ∧
       let values :=
         present field
           (filter (λ r, Category r = SummaryRow.Category row ∧
                         BrandName r = SummaryRow.BrandName row) df) in
       values ≠ [] ∧
       is_maximum (SummaryRow.Max row) values ∧
       is_minimum (SummaryRow.Min row) values ∧
       SummaryRow.AvgMaxMin row = (SummaryRow.Max row + SummaryRow.Min row) / 2) ∧
  (∀ row, row ∈ category_summary →
     ∃ field, row_field row field ∧
       let values :=
         present field (filter (λ r, Category r = SummaryRow.Category row) df) in
       values ≠ [] ∧
       is_maximum (SummaryRow.Max row) values ∧
       is_minimum (SummaryRow.Min row) values ∧
       SummaryRow.AvgMaxMin row = (SummaryRow.Max row + SummaryRow.Min row) / 2).
Proof.
  unfold calculate_summary_stats.
  destruct (brand_loop _) as [summary' brand_name] eqn:Hbrand.
  destruct (category_loop _ _) as [[stats bn]|e] eqn:Hcat; simpl; [|done].
  destruct (sort_values_by_category stats) as [sorted|e] eqn:Hsort; simpl;
    [|done].
  intros [= <- <-]. split.
  - intros row Hrow.
    destruct (brand_loop_rows _ _ _ _ Hbrand Hrow) as (c & b & g & Hin & Hg).
    apply elem_of_groupby in Hin as [_ ->].
    apply elem_of_brand_rows in Hg as (<- & <- & field & Hfield & Hsum).
    exists field. split; [done|]. simpl.
    rewrite (list_filter_iff _ (λ r, (Category r, BrandName r) =
                                     (SummaryRow.Category row, SummaryRow.BrandName row)))
      by (intros r; split; [by intros [-> ->]|by intros [= -> ->]]).
    destruct Hsum as (? & ? & ? & ? & _). done.
  - intros row Hrow. rewrite (sort_values_rows _ _ _ Hsort) in Hrow.
    destruct (category_loop_rows _ _ _ _ Hcat Hrow)
      as [Hnil|(c & g & Hin & <- & field & Hfield & Hsum)];
      [by apply elem_of_nil in Hnil|].
    apply elem_of_groupby in Hin as [_ ->].
    exists field. split; [done|]. simpl.
    destruct Hsum as (? & ? & ? & ? & _). done.
Qed.

(** C10. [calculate_summary_stats] returns its two tables exactly when some
    record has a price in one of the two price fields; otherwise, and so on
    a frame of sentinel records, it raises [KeyError] (no empty table is
    returned). *)
Theorem calculate_summary_stats_raises :
  (∃ df,
     df ≠ [] ∧
     Forall (λ r, OriginalPrice r = None ∧ ActualSalePrice r = None) df ∧
     calculate_summary_stats df = Raise KeyError) ∧
  (∀ df,
     Forall (λ r, OriginalPrice r = None ∧ ActualSalePrice r = None) df →
     calculate_summary_stats df = Raise KeyError) ∧
  (∀ df,
     (∃ summary category_summary,
        calculate_summary_stats df = Ok (summary, category_summary)) ↔
     Exists has_price df).
Proof.
  assert (∀ df,
     Forall (λ r, OriginalPrice r = None ∧ ActualSalePrice r = None) df →
     calculate_summary_stats df = Raise KeyError) as Hraise.
  { intros df Hdf. apply calculate_summary_stats_unpriced.
    intros (r & Hr & Hprice)%Exists_exists.
    rewrite Forall_forall in Hdf. destruct (Hdf r Hr) as [Ho Ha].
    destruct Hprice as [[x Hx]|[x Hx]]; congruence. }
  split; [|split; [done|]].
  - exists [sentinel Example.A Example.X]. split; [done|].
    split; [by repeat constructor|]. apply Hraise. by repeat constructor.
  - intros df. split; [|apply calculate_summary_stats_priced].
    intros (summary & category_summary & Hok).
    destruct (decide (Exists has_price df)) as [?|Hno]; [done|].
    apply calculate_summary_stats_unpriced in Hno. congruence.
Qed.

Lemma calculate_summary_stats_rows_witness :
  ∃ summary category_summary,
    calculate_summary_stats [Example.discounted_record; Example.plain_record]
      = Ok (summary, category_summary) ∧
    Forall (λ row, SummaryRow.AvgMaxMin row = (SummaryRow.Max row + SummaryRow.Min row) / 2)
      (summary ++ category_summary).
Proof.
  do 2 eexists. split; [vm_compute; reflexivity|].
  match goal with
  | |- Forall _ (?s ++ ?c) =>
      destruct (calculate_summary_stats_rows
                  [Example.discounted_record; Example.plain_record] s c)
        as [Hs Hc]; [vm_compute; reflexivity|]
  end.
  apply Forall_app. split; apply Forall_forall; intros row Hrow.
  - destruct (Hs row Hrow) as (_ & _ & _ & _ & _ & H). exact H.
  - destruct (Hc row Hrow) as (_ & _ & _ & _ & _ & H). exact H.
Defined.

(** ** Further properties of the parser *)

Section Parser_values.

Variable unicode_decimal : N → option N.

Lemma spelled_cons c s m :
  foldl (λ m c, match decimal_digit unicode_decimal c with
                | Some d => (10 * m + d)%N
                | None => m
                end) m (c :: s) =
  foldl (λ m c, match decimal_digit unicode_decimal c with
                | Some d => (10 * m + d)%N
                | None => m
                end)
    (match decimal_digit unicode_decimal c with
     | Some d => (10 * m + d)%N
     | None => m
     end) s.
Proof. reflexivity. Qed.

(** What [float] reads from a text over the class, when it accepts it. *)
Lemma scan_float_Some s m frac seen m' k' :
  scan_float unicode_decimal s m frac seen = Some (m', k') →
  m' = foldl (λ m c, match decimal_digit unicode_decimal c with
                     | Some d => (10 * m + d)%N
                     | None => m
                     end) m s ∧
  k' = match frac with
       | Some k => (k + digits unicode_decimal s)%nat
       | None => decimals unicode_decimal s
       end.
Proof.
  revert m frac seen. induction s as [|c s IH]; intros m frac seen; simpl.
  { destruct seen; [|done]. intros [= <- <-]. split; [done|].
    destruct frac; unfold decimals, digits; simpl; lia. }
  unfold decimals. simpl. rewrite digits_cons.
  destruct (decimal_digit unicode_decimal c) as [d|] eqn:Hd.
  - intros Hscan. apply IH in Hscan as [Hm Hk]. clear IH. subst m' k'.
    split; [done|].
    destruct frac; simpl; [lia|].
    case_bool_decide as Hc; [|done].
    subst c. by rewrite full_stop_no_digit in Hd.
  - case_bool_decide as Hc; [|done].
    destruct frac as [k|]; [done|].
    intros Hscan. apply IH in Hscan as [Hm Hk]. clear IH. subst m' k'.
    split; [done|]. simpl. unfold digits. lia.
Qed.

Lemma spelled_stripped text :
  spelled unicode_decimal (re_sub_strip unicode_decimal text) =
  spelled unicode_decimal text.
Proof.
  unfold spelled, re_sub_strip. generalize 0%N.
  induction text as [|c text IH]; intros m; [done|].
  rewrite filter_cons. destruct (decide _) as [Hc|Hc].
  - simpl. apply IH.
  - rewrite IH. simpl.
    destruct (decimal_digit unicode_decimal c) as [d|] eqn:Hd; [|done].
    destruct Hc. unfold in_class. by rewrite Hd.
Qed.

Lemma decimals_stripped text :
  decimals unicode_decimal (re_sub_strip unicode_decimal text) =
  decimals unicode_decimal text.
Proof.
  unfold decimals.
  induction text as [|c text IH]; [done|].
  unfold re_sub_strip in *. rewrite filter_cons. simpl.
  destruct (decide _) as [Hc|Hc].
  - simpl. case_bool_decide; [|done]. apply (digits_stripped unicode_decimal).
  - rewrite IH. rewrite bool_decide_eq_false_2; [done|].
    intros ->. by destruct Hc.
Qed.

End Parser_values.

(** X1. A text with a digit and at most one full stop parses to the number
    that its digits spell, with as many decimal places as there are digits
    after the full stop; every other character is ignored. *)
Theorem extract_price_value unicode_decimal text :
  digits unicode_decimal text ≠ 0%nat →
  (full_stops text ≤ 1)%nat →
  extract_price unicode_decimal text =
    Some (decimal (spelled unicode_decimal text)
            (decimals unicode_decimal text)).
Proof.
  intros Hdigits Hstops.
  destruct (extract_price unicode_decimal text) as [q|] eqn:Hq.
  - revert Hq. unfold extract_price, float_of_str.
    rewrite replace_comma_stripped.
    destruct (scan_float _ _ _ _ _) as [[m k]|] eqn:Hscan; [|done].
    apply scan_float_Some in Hscan as [-> ->]. simpl. intros [= <-].
    fold (spelled unicode_decimal (re_sub_strip unicode_decimal text)).
    by rewrite spelled_stripped, decimals_stripped.
  - apply extract_price_None in Hq as [?|?]; [done|lia].
Qed.

Lemma extract_price_value_witness :
  extract_price ascii_only (Example.price "1,234.50") =
    Some (decimal 123450 2).
Proof.
  apply (extract_price_value ascii_only (Example.price "1,234.50"));
    vm_compute; [discriminate|lia].
Defined.

(** X2. The parsers never return a negative number: a sign in the text is
    dropped with the other characters. *)
Theorem extract_price_nonneg unicode_decimal text q :
  extract_price unicode_decimal text = Some q ∨
  extract_discount_rate unicode_decimal text = Some q →
  0 ≤ q.
Proof.
  assert (∀ s, float_of_str unicode_decimal s = Some q → 0 ≤ q) as Hfloat.
  { intros s. unfold float_of_str.
    destruct (scan_float _ _ _ _ _) as [[m k]|]; [|done]. simpl.
    intros [= <-]. unfold decimal, Qcle, Q2Qc, this.
    rewrite !Qred_correct. unfold Qle. simpl. lia. }
  intros [H|H]; eapply Hfloat, H.
Qed.

Lemma extract_price_nonneg_witness :
  0 ≤ Qc_of_Z 15.
Proof.
  apply (extract_price_nonneg ascii_only (Str.lit "-15%")). right.
  vm_compute. f_equal. by apply Qc_is_canon.
Defined.

(** ** Further properties of the extractor *)

Section Extractor_records.

Variable unicode_decimal : N → option N.
Variables category user_brand_name : str.

Abbreviation body := (loop_body unicode_decimal category user_brand_name).
Abbreviation loop := (for_each unicode_decimal category user_brand_name).
Abbreviation sale_of := (card_sale_price unicode_decimal).
Abbreviation from_card :=
  (record_of_card unicode_decimal category user_brand_name).

(** With [sale_price_text] bound, the scan returns the parse of the first
    price span that differs from it and carries the currency marker. *)
Lemma scan_price_elements_sale price_elements sale :
  scan_price_elements unicode_decimal price_elements (Some sale) =
  Ok ((λ s, extract_price unicode_decimal (text s)) <$>
        head (filter (λ s, text s ≠ sale ∧ Str.won ∈ text s) price_elements)).
Proof.
  induction price_elements as [|price_el rest IH]; simpl; [done|].
  destruct (bool_decide (text price_el = [])) eqn:Hempty.
  { apply bool_decide_eq_true_1 in Hempty.
    rewrite filter_cons_False; [done|]. rewrite Hempty. intros [_ Hin].
    by apply elem_of_nil in Hin. }
  destruct (bool_decide (text price_el ≠ sale)) eqn:Hne;
    destruct (bool_decide (Str.won ∈ text price_el)) eqn:Hwon; simpl.
  - rewrite filter_cons_True; [done|].
    split; by eapply bool_decide_eq_true_1.
  - rewrite filter_cons_False; [done|]. intros [_ Hin].
    by apply bool_decide_eq_false_1 in Hwon.
  - rewrite filter_cons_False; [done|]. intros [Hin _].
    by apply bool_decide_eq_false_1 in Hne.
  - rewrite filter_cons_False; [done|]. intros [Hin _].
    by apply bool_decide_eq_false_1 in Hne.
Qed.

(** With [sale_price_text] unbound, the scan raises at the first price span
    with a text. *)
Lemma scan_price_elements_unbound price_elements :
  Exists (λ s, text s ≠ []) price_elements →
  scan_price_elements unicode_decimal price_elements None =
  Raise UnboundLocalError.
Proof.
  induction 1 as [price_el rest Htext|price_el rest _ IH]; simpl.
  - by rewrite bool_decide_eq_false_2.
  - rewrite IH. by case_bool_decide.
Qed.

Lemma scan_price_elements_no_text price_elements sale_text :
  Forall (λ s, text s = []) price_elements →
  scan_price_elements unicode_decimal price_elements sale_text = Ok None.
Proof.
  induction 1 as [|price_el rest Htext _ IH]; simpl; [done|].
  by rewrite bool_decide_eq_true_2.
Qed.

Lemma loop_body_record element σ σ' :
  body element σ = Ok σ' →
  (products σ' = products σ ∧ unique_prices σ' = unique_prices σ ∧
   sale_of element ∈ unique_prices σ) ∨
  ∃ r, products σ' = products σ ++ [r] ∧
       unique_prices σ' = unique_prices σ ∪ {[ sale_of element ]} ∧
       from_card element r.
Proof.
  unfold loop_body, record_of_card, card_original_price, card_discount_rate,
    card_sale_price.
  destruct (Driver.find_sale_price element) as [t|] eqn:Hsale; simpl.
  - case_bool_decide as Hseen; [intros [= <-]; by left|].
    destruct (Driver.find_discount_rate element ≫= _) as [d|]; simpl.
    + unfold Driver.find_price_elements.
      rewrite scan_price_elements_sale. simpl. intros [= <-]. right.
      eexists. split; [done|]. simpl. repeat split; try done.
      intros _. by destruct (head _).
    + intros [= <-]. right. eexists. split; [done|]. simpl. by repeat split.
  - case_bool_decide as Hseen; [intros [= <-]; by left|].
    destruct (Driver.find_discount_rate element ≫= _) as [d|]; simpl.
    + destruct (scan_price_elements _ _ _) as [found|e]; simpl; [|done].
      intros [= <-]. right. eexists. split; [done|]. simpl.
      repeat split; try done.
    + intros [= <-]. right. eexists. split; [done|]. simpl.
      repeat split; try done.
Qed.

Lemma loop_extends product_elements σ :
  products σ `prefix_of` loop product_elements σ.
Proof.
  revert σ. induction product_elements as [|element rest IH]; intros σ;
    simpl; [done|].
  destruct (body element σ) as [σ'|e] eqn:Hbody; [|done].
  etrans; [|apply IH].
  apply loop_body_record in Hbody as [(-> & _)|(r & -> & _)];
    [done|by apply prefix_app_r].
Qed.

Lemma loop_records product_elements σ r :
  r ∈ loop product_elements σ →
  r ∈ products σ ∨
  ∃ element, element ∈ product_elements ∧ from_card element r.
Proof.
  revert σ. induction product_elements as [|element rest IH]; intros σ;
    simpl; [by left|].
  destruct (body element σ) as [σ'|e] eqn:Hbody; [|by left].
  intros [Hr|(element' & Hin & Hrec)]%IH.
  - apply loop_body_record in Hbody as [(Heq & _)|(r' & Heq & _ & Hrec)];
      rewrite Heq in Hr; [by left|].
    apply elem_of_app in Hr as [Hr| ->%list_elem_of_singleton]; [by left|].
    right. exists element. split; [by left|done].
  - right. exists element'. split; [by right|done].
Qed.

(** Processing the cards of a first list, then more cards, starts as
    processing the first list alone. *)
Lemma loop_app product_elements more σ :
  loop product_elements σ `prefix_of` loop (product_elements ++ more) σ.
Proof.
  revert σ. induction product_elements as [|element rest IH]; intros σ;
    simpl; [apply loop_extends|].
  destruct (body element σ) as [σ'|e]; [apply IH|done].
Qed.

(** Cards whose sale prices were all seen add nothing. *)
Lemma loop_all_seen product_elements σ :
  Forall (λ element, sale_of element ∈ unique_prices σ) product_elements →
  loop product_elements σ = products σ.
Proof.
  intros Hall. revert σ Hall.
  induction product_elements as [|element rest IH]; intros σ Hall; simpl;
    [done|].
  apply Forall_cons in Hall as [Hseen Hall].
  assert (body element σ =
          Ok {| products := products σ; unique_prices := unique_prices σ;
                sale_price_text :=
                  from_option Some (sale_price_text σ)
                    (Driver.find_sale_price element) |}) as ->.
  { revert Hseen. unfold loop_body, card_sale_price.
    destruct (Driver.find_sale_price element); simpl; intros Hseen;
      by rewrite bool_decide_eq_true_2. }
  by rewrite IH.
Qed.

Lemma loop_app_seen product_elements more σ :
  Forall (λ element,
            sale_of element ∈
              unique_prices σ ∪ list_to_set (sale_of <$> product_elements))
    more →
  loop (product_elements ++ more) σ = loop product_elements σ.
Proof.
  revert σ. induction product_elements as [|element rest IH]; intros σ Hall;
    simpl.
  { apply loop_all_seen. eapply Forall_impl; [done|]. simpl. set_solver. }
  destruct (body element σ) as [σ'|e] eqn:Hbody; [|done].
  apply IH. eapply Forall_impl; [done|]. simpl. intros element' Hin.
  apply loop_body_record in Hbody
    as [(_ & Heq & Hseen)|(r & _ & Heq & _)]; rewrite Heq; clear Heq IH Hall;
    apply elem_of_union in Hin as [Hin|Hin];
    try apply elem_of_union in Hin as [Hin|Hin];
    try apply elem_of_singleton in Hin;
    rewrite ?elem_of_union, ?elem_of_singleton; auto.
  rewrite Hin. auto.
Qed.

End Extractor_records.

(** X3. Every record that [get_product_info] returns carries the category
    and the brand of the call.  On a page with cards, it is read off one
    card of the page: the name of the card, or N/A without a name span; its
    sale price; its discount rate; and, when the card has a sale-price
    span, the sale price for original price without a discount rate, and
    otherwise the parse of the first other price span with the currency
    marker, or nothing. *)
Theorem get_product_info_records unicode_decimal product_elements category
    user_brand_name r :
  r ∈ get_product_info unicode_decimal product_elements category
        user_brand_name →
  Category r = category ∧ BrandName r = user_brand_name ∧
  (product_elements ≠ [] →
   ∃ element, element ∈ product_elements ∧
     record_of_card unicode_decimal category user_brand_name element r).
Proof.
  unfold get_product_info. case_bool_decide as Hempty.
  - by intros ->%list_elem_of_singleton.
  - intros [Hnil|(element & Hin & Hrec)]%loop_records;
      [by apply elem_of_nil in Hnil|].
    pose proof Hrec as (? & ? & _). repeat split; try done.
    intros _. by exists element.
Qed.

Lemma get_product_info_records_witness :
  ∃ r, r ∈ get_product_info ascii_only [Example.full_card] Example.B
             Example.X ∧
       ProductName r = Str.lit "N/A" ∧
       OriginalPrice r = card_original_price ascii_only Example.full_card ∧
       card_original_price ascii_only Example.full_card =
         Some (decimal 10000 0).
Proof.
  eexists. split; [by left|].
  edestruct (get_product_info_records ascii_only [Example.full_card]
               Example.B Example.X) as (_ & _ & Hcard); [by left|].
  destruct Hcard as (element & ->%list_elem_of_singleton & Hrec); [done|].
  destruct Hrec as (_ & _ & Hname & _ & _ & Horig).
  split; [exact Hname|]. split; [|reflexivity].
  apply Horig. by eexists.
Defined.

(** X4. Cards that come later never change what the cards before them gave:
    the records of a page are a prefix of the records of the page with more
    cards after it. *)
Theorem get_product_info_more_cards unicode_decimal product_elements more
    category user_brand_name :
  product_elements ≠ [] →
  get_product_info unicode_decimal product_elements category user_brand_name
    `prefix_of`
  get_product_info unicode_decimal (product_elements ++ more) category
    user_brand_name.
Proof.
  intros Hne. unfold get_product_info.
  rewrite !bool_decide_eq_false_2; [apply loop_app| |done].
  by destruct product_elements.
Qed.

Lemma get_product_info_more_cards_witness :
  get_product_info ascii_only [Example.plain_card] Example.A Example.X
    `prefix_of`
  get_product_info ascii_only [Example.plain_card; Example.full_card]
    Example.A Example.X.
Proof.
  by apply (get_product_info_more_cards ascii_only [Example.plain_card]
              [Example.full_card]).
Defined.

(** X5. Cards whose sale price is the sale price of an earlier card of the
    page add nothing, whatever else they show: a page followed by such
    cards, for instance by its own cards once more, gives the records of
    the page. *)
Theorem get_product_info_repeated_prices unicode_decimal product_elements
    more category user_brand_name :
  product_elements ≠ [] →
  Forall (λ element,
            card_sale_price unicode_decimal element ∈
              card_sale_price unicode_decimal <$> product_elements) more →
  get_product_info unicode_decimal (product_elements ++ more) category
    user_brand_name =
  get_product_info unicode_decimal product_elements category user_brand_name.
Proof.
  intros Hne Hall. unfold get_product_info.
  rewrite !bool_decide_eq_false_2; [|done|by destruct product_elements].
  apply loop_app_seen. eapply Forall_impl; [done|]. simpl. set_solver.
Qed.

Lemma get_product_info_repeated_prices_witness :
  get_product_info ascii_only
    ([Example.plain_card; Example.full_card] ++
     [Example.plain_card; Example.full_card; Example.discounted_card])
    Example.A Example.X =
  get_product_info ascii_only [Example.plain_card; Example.full_card]
    Example.A Example.X.
Proof.
  apply (get_product_info_repeated_prices ascii_only
           [Example.plain_card; Example.full_card]); [done|].
  repeat constructor; vm_compute; set_solver.
Defined.

(** X6. A page with cards gives no record at all exactly when its first card
    has no sale-price span, has a discount rate that parses, and has a
    price span with a text: the scan for the original price then reads
    [sale_price_text] before any assignment, and the cards that follow are
    never looked at. *)
Theorem get_product_info_nothing unicode_decimal element rest category
    user_brand_name :
  get_product_info unicode_decimal (element :: rest) category user_brand_name
    = [] ↔
  Driver.find_sale_price element = None ∧
  is_Some (card_discount_rate unicode_decimal element) ∧
  Exists (λ s, text s ≠ []) (price_spans element).
Proof.
  unfold get_product_info. rewrite bool_decide_eq_false_2 by done. simpl.
  destruct (loop_body unicode_decimal category user_brand_name element
              initial) as [σ'|e] eqn:Hbody.
  - split.
    + intros Hnil.
      pose proof (loop_extends unicode_decimal category user_brand_name
                    rest σ') as Hpre.
      rewrite Hnil in Hpre. apply prefix_nil_inv in Hpre.
      apply loop_body_record in Hbody
        as [(_ & _ & Hseen)|(r & Heq & _)]; [set_solver|].
      rewrite Hpre in Heq. by destruct (products initial).
    + intros (Hsale & [d Hd] & Hex). revert Hbody.
      unfold loop_body, card_discount_rate in *. rewrite Hsale, Hd. simpl.
      unfold Driver.find_price_elements.
      by rewrite scan_price_elements_unbound.
  - split; [|done]. intros _. revert Hbody.
    unfold loop_body, card_discount_rate.
    destruct (Driver.find_sale_price element) as [t|]; simpl.
    + destruct (Driver.find_discount_rate element ≫= _); simpl; [|done].
      unfold Driver.find_price_elements.
      by rewrite scan_price_elements_sale.
    + destruct (Driver.find_discount_rate element ≫= _); simpl; [|done].
      unfold Driver.find_price_elements.
      destruct (decide (Exists (λ s, text s ≠ []) (price_spans element)))
        as [Hex|Hno].
      * intros _. split; [done|]. split; [by eexists|done].
      * rewrite scan_price_elements_no_text; [done|].
        apply Forall_forall. intros s Hs.
        destruct (decide (text s = [])) as [|Hne]; [done|].
        destruct Hno. apply Exists_exists. by exists s.
Qed.

(** ** Further properties of the aggregator *)

Module Qc_facts.






End Qc_facts.

Section Aggregator_more.

Implicit Types (df group : list ProductRecord) (row : SummaryRow.t).

Lemma metric_original_actual count rate :
  metric_original count ≠ metric_actual rate.
Proof.
  unfold metric_original, metric_actual.
  generalize (Format.int count ++ Str.lit ")")
             (Format.fixed2 rate ++ Str.lit "%)").
  intros t1 t2 H. vm_compute in H. discriminate.
Qed.

Lemma row_field_unique row field field' :
  row_field row field → row_field row field' → field = field'.
Proof.
  intros [[-> [? Hm]]|[-> [? Hm]]] [[-> [? Hm']]|[-> [? Hm']]]; try done;
    rewrite Hm in Hm'; [|symmetry in Hm']; by apply metric_original_actual in Hm'.
Qed.


(** Both tables, row by row: the group of a row and what the row says of
    it. *)
Lemma calculate_summary_stats_groups df summary category_summary :
  calculate_summary_stats df = Ok (summary, category_summary) →
  (∀ row, row ∈ summary →
     row_of_group (SummaryRow.Category row)
       (filter (λ r, (Category r, BrandName r) =
                     (SummaryRow.Category row, SummaryRow.BrandName row)) df) row) ∧
  (∀ row, row ∈ category_summary →
     row_of_group (SummaryRow.Category row)
       (filter (λ r, Category r = SummaryRow.Category row) df) row).
Proof.
  unfold calculate_summary_stats.
  destruct (brand_loop _) as [summary' brand_name] eqn:Hbrand.
  destruct (category_loop _ _) as [[stats bn]|e] eqn:Hcat; simpl; [|done].
  destruct (sort_values_by_category stats) as [sorted|e] eqn:Hsort; simpl;
    [|done].
  intros [= <- <-]. split.
  - intros row Hrow.
    destruct (brand_loop_rows _ _ _ _ Hbrand Hrow) as (c & b & g & Hin & Hg).
    apply elem_of_groupby in Hin as [_ ->].
    apply elem_of_brand_rows in Hg as [Hb Hg].
    pose proof Hg as [Hc _]. by rewrite Hb, Hc.
  - intros row Hrow. rewrite (sort_values_rows _ _ _ Hsort) in Hrow.
    destruct (category_loop_rows _ _ _ _ Hcat Hrow)
      as [Hnil|(c & g & Hin & Hg)]; [by apply elem_of_nil in Hnil|].
    apply elem_of_groupby in Hin as [_ ->].
    pose proof Hg as [Hc _]. by rewrite Hc.
Qed.

Lemma present_elem field group (r : ProductRecord) :
  r ∈ group → is_Some (field r) → present field group ≠ [].
Proof.
  intros Hr [v Hv] Hnil.
  assert (v ∈ present field group) as Hin
    by (apply list_elem_of_omap; by exists r).
  rewrite Hnil in Hin. by apply elem_of_nil in Hin.
Qed.

Lemma brand_rows_complete category brand_name group field :
  field = OriginalPrice ∨ field = ActualSalePrice →
  present field group ≠ [] →
  ∃ row, row ∈ brand_rows category brand_name group ∧ row_field row field.
Proof.
  unfold brand_rows. rewrite !Series_facts.dropna_present.
  intros [-> | ->] Hne.
  - destruct (present OriginalPrice group) as [|x xs]; [done|].
    eexists. split; [apply elem_of_app; left; by left|].
    left. split; [done|]. by eexists.
  - destruct (present ActualSalePrice group) as [|x xs]; [done|].
    eexists. split; [apply elem_of_app; right; by left|].
    right. split; [done|]. by eexists.
Qed.

Lemma brand_loop_complete groups category brand group row :
  (category, brand, group) ∈ groups →
  row ∈ brand_rows category brand group →
  row ∈ (brand_loop groups).1.
Proof.
  unfold brand_loop. intros Hin Hrow.
  assert (∀ acc,
    row ∈ acc.1 ∨ (category, brand, group) ∈ groups →
    row ∈ (foldl brand_body acc groups).1) as Hgen.
  { clear Hin. induction groups as [|[[c b] g] gs IH]; intros acc; simpl.
    - intros [?|Hin]; [done|]. by apply elem_of_nil in Hin.
    - destruct acc as [acc bn]. intros [Hacc|Hin]; apply IH; simpl.
      + left. apply elem_of_app. by left.
      + apply elem_of_cons in Hin as [[= <- <- <-]|Hin]; [|by right].
        left. apply elem_of_app. by right. }
  apply Hgen. by right.
Qed.

Lemma category_body_complete category group st st' :
  category_body category group st = Ok st' →
  (∀ row, row ∈ st.1 → row ∈ st'.1) ∧
  (∀ field, field = OriginalPrice ∨ field = ActualSalePrice →
     present field group ≠ [] →
     ∃ row, row ∈ st'.1 ∧ SummaryRow.Category row = category ∧
            row_field row field ∧ summarises row (present field group)).
Proof.
  unfold category_body. destruct st as [stats bn].
  rewrite !Series_facts.dropna_present.
  destruct (present OriginalPrice group) as [|x xs] eqn:Hx;
    destruct (present ActualSalePrice group) as [|y ys] eqn:Hy; simpl.
  - intros [= <-]. split; [done|]. intros field [-> | ->]; by rewrite ?Hx, ?Hy.
  - destruct bn as [b|]; [|done]. intros [= <-]. simpl. split.
    { intros row Hrow. apply elem_of_app. by left. }
    intros field [-> | ->]; rewrite ?Hx, ?Hy; [done|]. intros _.
    eexists. split; [apply elem_of_app; right; by left|].
    split; [done|]. split; [right; split; [done|by eexists]|].
    apply stats_row_summarises.
  - intros [= <-]. simpl. split.
    { intros row Hrow. apply elem_of_app. by left. }
    intros field [-> | ->]; rewrite ?Hx, ?Hy; [|done]. intros _.
    eexists. split; [apply elem_of_app; right; by left|].
    split; [done|]. split; [left; split; [done|by eexists]|].
    apply stats_row_summarises.
  - intros [= <-]. simpl. split.
    { intros row Hrow. apply elem_of_app. left. apply elem_of_app. by left. }
    intros field [-> | ->]; rewrite ?Hx, ?Hy; intros _.
    + eexists. split; [apply elem_of_app; left; apply elem_of_app; right;
                        by left|].
      split; [done|]. split; [left; split; [done|by eexists]|].
      apply stats_row_summarises.
    + eexists. split; [apply elem_of_app; right; by left|].
      split; [done|]. split; [right; split; [done|by eexists]|].
      apply stats_row_summarises.
Qed.

Lemma category_loop_complete groups st st' :
  category_loop groups st = Ok st' →
  (∀ row, row ∈ st.1 → row ∈ st'.1) ∧
  (∀ category group field,
     (category, group) ∈ groups →
     field = OriginalPrice ∨ field = ActualSalePrice →
     present field group ≠ [] →
     ∃ row, row ∈ st'.1 ∧ SummaryRow.Category row = category ∧
            row_field row field ∧ summarises row (present field group)).
Proof.
  revert st. induction groups as [|[c g] gs IH]; intros st; simpl.
  { intros [= <-]. split; [done|]. intros ??? Hin. by apply elem_of_nil in Hin. }
  destruct (category_body c g st) as [st1|e] eqn:Hbody; simpl; [|done].
  intros Hloop. destruct (IH _ Hloop) as [Hkeep Hall].
  destruct (category_body_complete _ _ _ _ Hbody) as [Hkeep1 Hnew].
  split; [by auto|].
  intros category group field [[= <- <-]|Hin]%elem_of_cons Hfield Hne.
  - destruct (Hnew field Hfield Hne) as (row & Hrow & ?).
    exists row. split; [by apply Hkeep|done].
  - by apply (Hall category group field).
Qed.

(** For every record with a price in a field, each table has a row of that
    field for the group of the record, which summarises the values of the
    group. *)
Lemma calculate_summary_stats_complete df summary category_summary r field :
  calculate_summary_stats df = Ok (summary, category_summary) →
  r ∈ df →
  field = OriginalPrice ∨ field = ActualSalePrice →
  is_Some (field r) →
  (∃ row, row ∈ summary ∧ SummaryRow.Category row = Category r ∧
          SummaryRow.BrandName row = BrandName r ∧ row_field row field ∧
          summarises row
            (present field
               (filter (λ r', (Category r', BrandName r') =
                              (Category r, BrandName r)) df))) ∧
  (∃ row, row ∈ category_summary ∧ SummaryRow.Category row = Category r ∧
          row_field row field ∧
          summarises row
            (present field (filter (λ r', Category r' = Category r) df))).
Proof.
  unfold calculate_summary_stats.
  destruct (brand_loop _) as [summary' brand_name] eqn:Hbrand.
  destruct (category_loop _ _) as [[stats bn]|e] eqn:Hcat; simpl; [|done].
  destruct (sort_values_by_category stats) as [sorted|e] eqn:Hsort; simpl;
    [|done].
  intros [= <- <-] Hr Hfield Hsome. split.
  - set (g := filter (λ r', (Category r', BrandName r') =
                            (Category r, BrandName r)) df).
    assert (present field g ≠ []) as Hne.
    { apply (present_elem _ _ r); [|done]. by apply list_elem_of_filter. }
    destruct (brand_rows_complete (Category r) (BrandName r) g field Hfield
                Hne) as (row & Hrow & Hkind).
    exists row.
    pose proof (elem_of_brand_rows _ _ _ _ Hrow)
      as (Hb & Hc & field' & Hkind' & Hsum).
    split.
    { replace summary' with (brand_loop
        (groupby (λ r, (Category r, BrandName r)) df)).1 by by rewrite Hbrand.
      eapply brand_loop_complete; [|done].
      apply elem_of_groupby. split; [|done].
      by apply (list_elem_of_fmap_2 (λ r, (Category r, BrandName r))). }
    do 3 (split; [done|]).
    by rewrite (row_field_unique _ _ _ Hkind Hkind').
  - destruct (category_loop_complete _ _ _ Hcat) as [_ Hall].
    destruct (Hall (Category r) (filter (λ r', Category r' = Category r) df)
                field) as (row & Hrow & ?); [|done| |].
    + apply elem_of_groupby. split; [by apply list_elem_of_fmap_2|done].
    + apply (present_elem _ _ r); [|done]. by apply list_elem_of_filter.
    + exists row. split; [|done]. by apply (sort_values_rows _ _ _ Hsort).
Qed.

End Aggregator_more.

Section Aggregator_statements.

Implicit Types (df group : list ProductRecord) (row : SummaryRow.t).

Lemma summarises_same row row' values :
  summarises row values → summarises row' values →
  SummaryRow.Max row = SummaryRow.Max row' ∧ SummaryRow.Min row = SummaryRow.Min row' ∧
  SummaryRow.AvgMaxMin row = SummaryRow.AvgMaxMin row' ∧ SummaryRow.Avg row = SummaryRow.Avg row'.
Proof.
  intros (_ & Hmax & Hmin & -> & ->) (_ & Hmax' & Hmin' & -> & ->).
  rewrite (Series_facts.maximum_unique _ _ values values (reflexivity _) Hmax
             Hmax').
  by rewrite (Series_facts.minimum_unique _ _ values values (reflexivity _)
                Hmin Hmin').
Qed.

Lemma summarises_subset row row' values values' :
  summarises row values → summarises row' values' →
  (∀ v, v ∈ values → v ∈ values') →
  SummaryRow.Max row ≤ SummaryRow.Max row' ∧ SummaryRow.Min row' ≤ SummaryRow.Min row.
Proof.
  intros (_ & [Hmax _] & [Hmin _] & _) (_ & [_ Hub] & [_ Hlb] & _) Hsub.
  split; [apply Hub|apply Hlb]; by apply Hsub.
Qed.

Lemma present_filter_subset field (P Q : ProductRecord → Prop)
    `{!∀ r, Decision (P r), !∀ r, Decision (Q r)} df v :
  (∀ r, P r → Q r) →
  v ∈ present field (filter P df) → v ∈ present field (filter Q df).
Proof.
  intros HPQ (r & [HP Hr]%list_elem_of_filter & Hv)%list_elem_of_omap.
  apply list_elem_of_omap. exists r. split; [|done].
  apply list_elem_of_filter. auto.
Qed.

Lemma filter_agree (P Q : ProductRecord → Prop)
    `{!∀ r, Decision (P r), !∀ r, Decision (Q r)} df :
  (∀ r, r ∈ df → (P r ↔ Q r)) → filter P df = filter Q df.
Proof.
  induction df as [|r df IH]; intros Hagree; [done|].
  rewrite !filter_cons.
  destruct (decide (P r)) as [HP|HP], (decide (Q r)) as [HQ|HQ].
  - f_equal. apply IH. intros r' Hr'. apply Hagree. by right.
  - destruct HQ. apply Hagree; [by left|done].
  - destruct HP. apply Hagree; [by left|done].
  - apply IH. intros r' Hr'. apply Hagree. by right.
Qed.

Lemma row_field_cases row field :
  row_field row field → field = OriginalPrice ∨ field = ActualSalePrice.
Proof. intros [[-> _]|[-> _]]; auto. Qed.

(** A row of the brand summary has a record of its group with a price in
    the field of the row. *)
Lemma summary_row_record df summary category_summary row field :
  calculate_summary_stats df = Ok (summary, category_summary) →
  row ∈ summary → row_field row field →
  ∃ r, r ∈ df ∧ Category r = SummaryRow.Category row ∧
       BrandName r = SummaryRow.BrandName row ∧ is_Some (field r) ∧
       summarises row
         (present field
            (filter (λ r', (Category r', BrandName r') =
                           (Category r, BrandName r)) df)).
Proof.
  intros Hok Hrow Hkind.
  destruct (calculate_summary_stats_groups _ _ _ Hok) as [Hs _].
  destruct (Hs row Hrow) as (_ & field' & Hkind' & Hsum).
  rewrite (row_field_unique _ _ _ Hkind' Hkind) in Hsum.
  pose proof Hsum as (Hne & _).
  destruct (present field _) as [|v vs] eqn:Hv in Hne; [done|].
  assert (v ∈ present field
            (filter (λ r, (Category r, BrandName r) =
                          (SummaryRow.Category row, SummaryRow.BrandName row)) df)) as Hin
    by (rewrite Hv; by left).
  apply list_elem_of_omap in Hin
    as (r & [[= Hc Hb] Hr]%list_elem_of_filter & Hfield).
  exists r. do 3 (split; [done|]). split; [by eexists|].
  by rewrite Hc, Hb.
Qed.

End Aggregator_statements.

(** X7. In the brand summary the label of a row is "Original Price (n)",
    with n the number of original prices present in the group of the row,
    or "Actual Sale Price (d%)", with d the mean of the discount rates
    present in the group, and 0.00 when the group has none. *)
Theorem summary_labels df summary category_summary row :
  calculate_summary_stats df = Ok (summary, category_summary) →
  row ∈ summary →
  let group := filter (λ r, Category r = SummaryRow.Category row ∧
                            BrandName r = SummaryRow.BrandName row) df in
  SummaryRow.Metric row = metric_original (length (present OriginalPrice group)) ∨
  SummaryRow.Metric row =
    metric_actual
      (Some match present DiscountRate group with
            | [] => 0
            | d :: ds => Series.mean d ds
            end).
Proof.
  intros Hok Hrow.
  destruct (calculate_summary_stats_labels _ _ _ Hok) as [Hs _].
  apply (Hs row Hrow).
Qed.

Lemma summary_labels_witness :
  ∃ summary category_summary row,
    calculate_summary_stats [Example.discounted_record; Example.plain_record]
      = Ok (summary, category_summary) ∧
    last summary = Some row ∧
    (SummaryRow.Metric row = metric_original 2 ∨
     SummaryRow.Metric row = metric_actual (Some (Qc_of_Z 10 / Qc_of_Z 1))).
Proof.
  do 3 eexists. split; [vm_compute; reflexivity|]. split; [reflexivity|].
  eapply (summary_labels
            [Example.discounted_record; Example.plain_record]);
    [vm_compute; reflexivity|by right; left].
Defined.

(** X8. In the category summary a row carries the label of its own category
    whenever the category has an original price.  Its label is "Original
    Price (n)", with n the number of original prices present in the
    category, or "Actual Sale Price (d%)", with d the mean of the discount
    rates present in the category, and nan when it has none. *)
Theorem category_summary_labels df summary category_summary row :
  calculate_summary_stats df = Ok (summary, category_summary) →
  row ∈ category_summary →
  let group := filter (λ r, Category r = SummaryRow.Category row) df in
  (present OriginalPrice group ≠ [] →
   SummaryRow.BrandName row = all_label (SummaryRow.Category row)) ∧
  (SummaryRow.Metric row = metric_original (length (present OriginalPrice group)) ∨
   SummaryRow.Metric row =
     metric_actual
       match present DiscountRate group with
       | [] => None
       | d :: ds => Some (Series.mean d ds)
       end).
Proof.
  intros Hok Hrow.
  destruct (calculate_summary_stats_labels _ _ _ Hok) as [_ Hc].
  destruct (Hc row Hrow) as [Hlabel Hmetric]. split; [done|].
  destruct (calculate_summary_stats_groups _ _ _ Hok) as [_ Hg].
  destruct (Hg row Hrow) as (_ & field & _ & Hne & _).
  unfold category_metric in Hmetric.
  rewrite bool_decide_eq_false_2 in Hmetric; [done|].
  intros Hnil. by rewrite Hnil in Hne.
Qed.

Lemma category_summary_labels_witness :
  ∃ summary category_summary row,
    calculate_summary_stats [Example.discounted_record; Example.plain_record]
      = Ok (summary, category_summary) ∧
    head category_summary = Some row ∧
    SummaryRow.BrandName row = all_label Example.A.
Proof.
  do 3 eexists. split; [vm_compute; reflexivity|]. split; [reflexivity|].
  eapply (category_summary_labels
            [Example.discounted_record; Example.plain_record]);
    [vm_compute; reflexivity|by left|done].
Defined.

(** X9. Whenever the two tables are returned, every record with a price in
    a field has a row of that field in the brand summary, under its category
    and brand, and one in the category summary, under its category. *)
Theorem calculate_summary_stats_covers df summary category_summary r field :
  calculate_summary_stats df = Ok (summary, category_summary) →
  r ∈ df →
  field = OriginalPrice ∨ field = ActualSalePrice →
  is_Some (field r) →
  (∃ row, row ∈ summary ∧ SummaryRow.Category row = Category r ∧
          SummaryRow.BrandName row = BrandName r ∧ row_field row field) ∧
  (∃ row, row ∈ category_summary ∧ SummaryRow.Category row = Category r ∧
          row_field row field).
Proof.
  intros Hok Hr Hfield Hsome.
  destruct (calculate_summary_stats_complete _ _ _ _ _ Hok Hr Hfield Hsome)
    as [(row & ? & ? & ? & ? & _) (crow & ? & ? & ? & _)].
  split; [by exists row|by exists crow].
Qed.

Lemma calculate_summary_stats_covers_witness :
  ∃ summary category_summary,
    calculate_summary_stats [Example.discounted_record; Example.plain_record]
      = Ok (summary, category_summary) ∧
    (∃ row, row ∈ summary ∧ SummaryRow.Category row = Example.A ∧
            SummaryRow.BrandName row = Example.X ∧ row_field row OriginalPrice) ∧
    (∃ row, row ∈ category_summary ∧ SummaryRow.Category row = Example.A ∧
            row_field row OriginalPrice).
Proof.
  do 2 eexists. split; [vm_compute; reflexivity|].
  eapply (calculate_summary_stats_covers
            [Example.discounted_record; Example.plain_record] _ _
            Example.discounted_record OriginalPrice);
    [vm_compute; reflexivity|by left|by left|by eexists].
Defined.

(** X10. [calculate_summary_stats] raises nothing but [KeyError], and only
    on a frame without any price: the second loop never reads [brand_name]
    unbound, the first loop has bound it. *)
Theorem calculate_summary_stats_exception df e :
  calculate_summary_stats df = Raise e →
  e = KeyError ∧ Forall (λ r, OriginalPrice r = None ∧
                              ActualSalePrice r = None) df.
Proof.
  intros Hraise.
  destruct (decide (Exists has_price df)) as [Hprice|Hno].
  - apply calculate_summary_stats_priced in Hprice as (? & ? & Hok).
    congruence.
  - pose proof (calculate_summary_stats_unpriced _ Hno) as Hkey.
    split; [congruence|].
    apply Forall_forall. intros r Hr.
    destruct (OriginalPrice r) as [x|] eqn:Ho;
      [destruct Hno; apply Exists_exists; exists r; split; [done|];
       left; rewrite Ho; by eexists|].
    destruct (ActualSalePrice r) as [x|] eqn:Ha; [|done].
    destruct Hno. apply Exists_exists. exists r. split; [done|].
    right. rewrite Ha. by eexists.
Qed.

Lemma calculate_summary_stats_exception_witness :
  KeyError = KeyError ∧
  Forall (λ r, OriginalPrice r = None ∧ ActualSalePrice r = None)
    (get_product_info ascii_only [] Example.A Example.X).
Proof.
  by apply (calculate_summary_stats_exception
              (get_product_info ascii_only [] Example.A Example.X)).
Defined.



(** X12. When all the records of a category are of one brand, the rows of
    that brand have a row of the same field in the category summary with
    the same four numbers. *)
Theorem category_summary_single_brand df summary category_summary row :
  calculate_summary_stats df = Ok (summary, category_summary) →
  row ∈ summary →
  (∀ r, r ∈ df → Category r = SummaryRow.Category row →
        BrandName r = SummaryRow.BrandName row) →
  ∃ crow field,
    crow ∈ category_summary ∧ SummaryRow.Category crow = SummaryRow.Category row ∧
    row_field row field ∧ row_field crow field ∧
    SummaryRow.Max crow = SummaryRow.Max row ∧ SummaryRow.Min crow = SummaryRow.Min row ∧
    SummaryRow.AvgMaxMin crow = SummaryRow.AvgMaxMin row ∧ SummaryRow.Avg crow = SummaryRow.Avg row.
Proof.
  intros Hok Hrow Hbrand.
  destruct (calculate_summary_stats_groups _ _ _ Hok) as [Hs _].
  destruct (Hs row Hrow) as (_ & field & Hkind & _).
  destruct (summary_row_record _ _ _ _ _ Hok Hrow Hkind)
    as (r & Hr & Hc & Hb & Hsome & Hsum).
  destruct (calculate_summary_stats_complete _ _ _ _ _ Hok Hr
              (row_field_cases _ _ Hkind) Hsome)
    as [_ (crow & Hcrow & Hcc & Hckind & Hcsum)].
  exists crow, field. split; [done|]. split; [congruence|].
  split; [done|]. split; [done|].
  rewrite (filter_agree (λ r', Category r' = Category r)
             (λ r', (Category r', BrandName r') = (Category r, BrandName r)))
    in Hcsum.
  - by apply (summarises_same _ _ _ Hcsum Hsum).
  - intros r' Hr'. split; [|by intros [= ? ?]].
    intros Hc'. f_equal; [done|].
    rewrite Hb. apply Hbrand; [done|congruence].
Qed.

Lemma category_summary_single_brand_witness :
  ∃ summary category_summary row,
    calculate_summary_stats [Example.discounted_record; Example.plain_record]
      = Ok (summary, category_summary) ∧
    head summary = Some row ∧
    ∃ crow field,
      crow ∈ category_summary ∧ SummaryRow.Category crow = SummaryRow.Category row ∧
      row_field row field ∧ row_field crow field ∧
      SummaryRow.Max crow = SummaryRow.Max row ∧ SummaryRow.Min crow = SummaryRow.Min row ∧
      SummaryRow.AvgMaxMin crow = SummaryRow.AvgMaxMin row ∧ SummaryRow.Avg crow = SummaryRow.Avg row.
Proof.
  do 3 eexists. split; [vm_compute; reflexivity|]. split; [reflexivity|].
  eapply (category_summary_single_brand
            [Example.discounted_record; Example.plain_record]);
    [vm_compute; reflexivity|by left|].
  intros r Hr _.
  apply elem_of_cons in Hr as [->|Hr]; [reflexivity|].
  apply list_elem_of_singleton in Hr as ->. reflexivity.
Defined.

(** X13. The row of a category spans the rows of its brands: for every row
    of the brand summary there is a row of the same field and category in
    the category summary whose maximum is not smaller and whose minimum is
    not greater. *)
Theorem category_summary_spans df summary category_summary row :
  calculate_summary_stats df = Ok (summary, category_summary) →
  row ∈ summary →
  ∃ crow field,
    crow ∈ category_summary ∧ SummaryRow.Category crow = SummaryRow.Category row ∧
    row_field row field ∧ row_field crow field ∧
    SummaryRow.Max row ≤ SummaryRow.Max crow ∧ SummaryRow.Min crow ≤ SummaryRow.Min row.
Proof.
  intros Hok Hrow.
  destruct (calculate_summary_stats_groups _ _ _ Hok) as [Hs _].
  destruct (Hs row Hrow) as (_ & field & Hkind & _).
  destruct (summary_row_record _ _ _ _ _ Hok Hrow Hkind)
    as (r & Hr & Hc & Hb & Hsome & Hsum).
  destruct (calculate_summary_stats_complete _ _ _ _ _ Hok Hr
              (row_field_cases _ _ Hkind) Hsome)
    as [_ (crow & Hcrow & Hcc & Hckind & Hcsum)].
  exists crow, field. split; [done|]. split; [congruence|].
  split; [done|]. split; [done|].
  apply (summarises_subset _ _ _ _ Hsum Hcsum).
  intros v. apply present_filter_subset. by intros r' [= ? ?].
Qed.

Lemma category_summary_spans_witness :
  ∃ summary category_summary row,
    calculate_summary_stats [Example.discounted_record; Example.plain_record]
      = Ok (summary, category_summary) ∧
    head summary = Some row ∧
    ∃ crow field,
      crow ∈ category_summary ∧ SummaryRow.Category crow = SummaryRow.Category row ∧
      row_field row field ∧ row_field crow field ∧
      SummaryRow.Max row ≤ SummaryRow.Max crow ∧ SummaryRow.Min crow ≤ SummaryRow.Min row.
Proof.
  do 3 eexists. split; [vm_compute; reflexivity|]. split; [reflexivity|].
  eapply (category_summary_spans
            [Example.discounted_record; Example.plain_record]);
    [vm_compute; reflexivity|by left].
Defined.

(** ** Properties of the run *)

Section Text_facts.

Lemma split_cons_inv sep s : ∃ piece pieces, Text.split sep s = piece :: pieces.
Proof.
  destruct s as [|c s]; simpl; [by eexists _, _|].
  case_bool_decide; [by eexists _, _|].
  destruct (Text.split sep s); by eexists _, _.
Qed.

End Text_facts.

Section Main_facts.

Variable unicode_decimal : N → option N.
Variable unicode_space : N → bool.
Variable site : nat → str → page.

Abbreviation strip := (Text.strip (Text.is_space unicode_space)).
Abbreviation on_page := (get_product_info_on unicode_decimal).
Abbreviation inner := (titles_loop unicode_decimal unicode_space site).
Abbreviation outer := (brands_loop unicode_decimal unicode_space site).
Abbreviation collected := (collect unicode_decimal site).
Abbreviation requested := (requests unicode_space).

Lemma titles_loop_collect user_brand_name titles rest all_products n :
  all_products ++
    collected (((λ title, (strip user_brand_name, strip title)) <$> titles)
             ++ rest) n =
  match inner (strip user_brand_name) titles all_products n with
  | (all_products', _, true) => all_products'
  | (all_products', n', false) => all_products' ++ collected rest n'
  end.
Proof.
  revert all_products n.
  induction titles as [|title titles IH]; intros all_products n; [done|].
  cbn [fmap list_fmap app collect titles_loop].
  destruct (site n _) as [product_elements| |].
  - by rewrite <-IH, <-app_assoc.
  - by rewrite <-IH, <-app_assoc.
  - by rewrite app_nil_r.
Qed.

Lemma brands_loop_collect brand_names titles all_products n :
  outer brand_names titles all_products n =
  all_products ++ collected (requested brand_names titles) n.
Proof.
  revert all_products n.
  induction brand_names as [|brand_name rest IH]; intros all_products n.
  { simpl. by rewrite app_nil_r. }
  cbn [brands_loop].
  assert (requested (brand_name :: rest) titles =
          ((λ title, (strip brand_name, strip title)) <$> titles) ++
          requested rest titles) as ->.
  { unfold requests. cbn [mbind list_bind]. f_equal. }
  rewrite titles_loop_collect.
  destruct (inner _ _ _ _) as [[all_products' n'] [|]]; [done|].
  apply IH.
Qed.

Lemma elem_of_requests brand_names titles r :
  r ∈ requested brand_names titles ↔
  ∃ brand_name title, brand_name ∈ brand_names ∧ title ∈ titles ∧
    r = (strip brand_name, strip title).
Proof.
  unfold requests. rewrite list_elem_of_bind. split.
  - intros (brand_name & (title & ->%list_elem_of_singleton & Ht)
            %list_elem_of_bind & Hb).
    by exists brand_name, title.
  - intros (brand_name & title & Hb & Ht & ->). exists brand_name.
    split; [|done]. apply list_elem_of_bind. exists title.
    split; [by apply list_elem_of_singleton|done].
Qed.

Lemma get_product_info_keys product_elements category user_brand_name r :
  r ∈ get_product_info unicode_decimal product_elements category
        user_brand_name →
  Category r = category ∧ BrandName r = user_brand_name.
Proof.
  unfold get_product_info. case_bool_decide as Hempty.
  - by intros ->%list_elem_of_singleton.
  - intros [Hnil|(element & Hin & Hrec)]%loop_records;
      [by apply elem_of_nil in Hnil|].
    by destruct Hrec as (? & ? & _).
Qed.

Lemma get_product_info_on_keys shown category user_brand_name r :
  r ∈ on_page shown category user_brand_name →
  Category r = category ∧ BrandName r = user_brand_name.
Proof.
  destruct shown; simpl; [apply get_product_info_keys| |];
    by intros ?%elem_of_nil.
Qed.

Lemma get_product_info_NoDup product_elements category user_brand_name :
  NoDup (ActualSalePrice <$>
         get_product_info unicode_decimal product_elements category
           user_brand_name).
Proof.
  unfold get_product_info. case_bool_decide as Hempty.
  - apply NoDup_singleton.
  - eapply NoDup_prefix; [apply loop_first_seen|]. simpl.
    apply first_seen_NoDup.
Qed.

Lemma get_product_info_on_NoDup shown category user_brand_name :
  NoDup (ActualSalePrice <$> on_page shown category user_brand_name).
Proof.
  destruct shown; simpl; [apply get_product_info_NoDup| |]; apply NoDup_nil_2.
Qed.

(** The products collected from a list of requests come from loaded pages
    of these requests. *)
Lemma elem_of_collect rs n r :
  r ∈ collected rs n →
  ∃ i user_brand_name title product_elements,
    rs !! i = Some (user_brand_name, title) ∧
    site (n + i) (url user_brand_name title) = Loaded product_elements ∧
    r ∈ get_product_info unicode_decimal product_elements title
          user_brand_name.
Proof.
  revert n. induction rs as [|[b t] rs IH]; intros n; simpl.
  { by intros ?%elem_of_nil. }
  destruct (site n (url b t)) as [product_elements| |] eqn:Hsite; simpl.
  - intros [Hr|Hr]%elem_of_app.
    + exists 0%nat, b, t, product_elements. by rewrite Nat.add_0_r.
    + apply IH in Hr as (i & b' & t' & els & Hi & Hs & Hr).
      exists (S i), b', t', els. by rewrite Nat.add_succ_r.
  - intros Hr. apply IH in Hr as (i & b' & t' & els & Hi & Hs & Hr).
    exists (S i), b', t', els. by rewrite Nat.add_succ_r.
  - by intros ?%elem_of_nil.
Qed.

Lemma collect_keys rs n r :
  r ∈ collected rs n → (BrandName r, Category r) ∈ rs.
Proof.
  intros (i & b & t & els & Hi & _ & Hr)%elem_of_collect.
  apply get_product_info_keys in Hr as [-> ->].
  by eapply list_elem_of_lookup_2.
Qed.

Lemma requests_NoDup brand_names titles :
  NoDup (strip <$> brand_names) → NoDup (strip <$> titles) →
  NoDup (requested brand_names titles).
Proof.
  intros Hb Ht. induction brand_names as [|brand_name rest IH].
  { apply NoDup_nil_2. }
  apply NoDup_cons in Hb as [Hfresh Hb].
  assert (requested (brand_name :: rest) titles =
          ((λ title, (strip brand_name, strip title)) <$> titles) ++
          requested rest titles) as ->.
  { unfold requests. cbn [mbind list_bind]. f_equal. }
  apply NoDup_app. split; [|split; [|by apply IH]].
  - rewrite (list_fmap_compose strip (λ t, (strip brand_name, t))).
    apply NoDup_fmap_2; [|done]. by intros t t' [= ->].
  - intros r (title & -> & _)%list_elem_of_fmap
      (brand_name' & title' & Hin & _ & [= Heq _])%elem_of_requests.
    apply Hfresh. rewrite Heq. by apply list_elem_of_fmap_2.
Qed.

Lemma filter_none {A} (P : A → Prop) `{∀ x, Decision (P x)} (l : list A) :
  (∀ x, x ∈ l → ¬ P x) → filter P l = [].
Proof.
  induction l as [|x l IH]; intros Hno; [done|].
  rewrite filter_cons_False by (apply Hno; by left).
  apply IH. intros y Hy. apply Hno. by right.
Qed.

(** Among the products of distinct requests, the records of one brand and
    one category have distinct sale prices. *)
Lemma collect_NoDup rs n category user_brand_name :
  NoDup rs →
  NoDup (ActualSalePrice <$>
         filter (λ r, Category r = category ∧ BrandName r = user_brand_name)
           (collected rs n)).
Proof.
  intros Hrs. revert n.
  induction Hrs as [|[b t] rs Hfresh _ IH]; intros n; simpl.
  { apply NoDup_nil_2. }
  assert (∀ shown,
    NoDup (ActualSalePrice <$>
           filter (λ r, Category r = category ∧ BrandName r = user_brand_name)
             (on_page shown t b ++ collected rs (S n)))) as Hpage.
  { intros shown. rewrite filter_app.
    destruct (decide ((b, t) = (user_brand_name, category))) as [[= -> ->]|Hne].
    - assert (filter (λ r, Category r = category ∧
                           BrandName r = user_brand_name)
                (collected rs (S n)) = []) as ->.
      { apply filter_none. intros r Hr [Hc Hb].
        apply collect_keys in Hr. apply Hfresh. by rewrite <-Hc, <-Hb. }
      rewrite app_nil_r.
      eapply sublist_NoDup; [apply get_product_info_on_NoDup|].
      apply fmap_sublist, sublist_filter.
    - assert (filter (λ r, Category r = category ∧
                           BrandName r = user_brand_name)
                (on_page shown t b) = []) as ->.
      { apply filter_none. intros r Hr [Hc Hb].
        apply get_product_info_on_keys in Hr as [Hc' Hb']. apply Hne.
        congruence. }
      apply IH. }
  destruct (site n (url b t)) as [product_elements| |].
  - apply (Hpage (Loaded product_elements)).
  - apply (Hpage FindFailed).
  - apply NoDup_nil_2.
Qed.

Lemma sort_values_by_keys_perm df : sort_values_by_keys df ≡ₚ df.
Proof. apply merge_sort_Permutation. Qed.

Lemma calculate_summary_stats_sorted df :
  calculate_summary_stats (sort_values_by_keys df) =
  calculate_summary_stats df.
Proof.
  pose proof (sort_values_by_keys_perm df) as Hp.
  unfold calculate_summary_stats.
  rewrite (brand_loop_perm _ _ (groupby_perm _ _ _ Hp)).
  destruct (brand_loop _) as [summary brand_name].
  by rewrite (category_loop_perm _ _ _ (groupby_perm _ _ _ Hp)).
Qed.

Lemma main_summary_cases titles_line brands_line :
  let all_products :=
    outer (Text.split Str.comma brands_line)
      (Text.split Str.comma titles_line) [] 0 in
  match main_summary unicode_decimal unicode_space site titles_line
          brands_line with
  | NoProducts => all_products = []
  | Crashed e =>
      e = KeyError ∧ all_products ≠ [] ∧
      Forall (λ r, ¬ has_price r) all_products
  | Summarised df summary category_summary =>
      Exists has_price all_products ∧
      df = sort_values_by_keys all_products ∧
      calculate_summary_stats all_products = Ok (summary, category_summary)
  end.
Proof.
  intros all_products. unfold main_summary. fold all_products.
  case_bool_decide as Hnil; [done|].
  rewrite calculate_summary_stats_sorted.
  destruct (decide (Exists has_price all_products)) as [Hprice|Hno].
  - destruct (calculate_summary_stats_priced _ Hprice)
      as (summary & category_summary & ->). done.
  - rewrite (calculate_summary_stats_unpriced _ Hno).
    split; [done|]. split; [done|]. by apply not_Exists_Forall; [apply _|].
Qed.

End Main_facts.

(** X14. The two loops of [main], with the handler of
    [WebDriverException], collect the products of the requests in order,
    brand by brand and title by title within a brand, both stripped of
    surrounding white space, up to the first page that fails to load:
    what was collected before the failure is kept, and nothing is
    collected after it. *)
Theorem brands_loop_requests unicode_decimal unicode_space site brand_names
    titles :
  brands_loop unicode_decimal unicode_space site brand_names titles [] 0 =
  collect unicode_decimal site (requests unicode_space brand_names titles) 0.
Proof. apply brands_loop_collect. Qed.


(** X16. When every page of the site loads and shows no product card, a
    run of [main] does not report that no product was found: it ends in
    the [KeyError] of [calculate_summary_stats]. *)
Theorem main_summary_empty_pages unicode_decimal unicode_space site
    titles_line brands_line :
  (∀ n address, site n address = Loaded []) →
  main_summary unicode_decimal unicode_space site titles_line brands_line =
  Crashed KeyError.
Proof.
  intros Hsite.
  pose proof (main_summary_cases unicode_decimal unicode_space site
                titles_line brands_line) as Hcases.
  simpl in Hcases. rewrite brands_loop_collect in Hcases. simpl in Hcases.
  set (rs := requests _ _ _) in Hcases.
  assert (∀ n, Forall (λ r, ¬ has_price r) (collect unicode_decimal site rs n))
    as Hall.
  { generalize rs. intros l. induction l as [|[b t] l IH]; intros n; simpl.
    { apply Forall_nil_2. }
    rewrite Hsite. simpl. apply Forall_cons. split; [|apply IH].
    by intros [[? [=]]|[? [=]]]. }
  assert (collect unicode_decimal site rs 0 ≠ []) as Hne.
  { subst rs. unfold requests.
    destruct (split_cons_inv Str.comma brands_line) as (b & bs & ->).
    destruct (split_cons_inv Str.comma titles_line) as (t & ts & ->).
    simpl. by rewrite Hsite. }
  destruct (main_summary _ _ _ _ _) as [|e|df summary category_summary].
  - done.
  - by destruct Hcases as [-> _].
  - destruct Hcases as (Hprice & _). apply Exists_exists in Hprice
      as (r & Hr & Hprice).
    specialize (Hall 0%nat). rewrite Forall_forall in Hall.
    by destruct (Hall r Hr).
Qed.

Lemma main_summary_empty_pages_witness :
  main_summary ascii_only (λ _, false) (λ _ _, Loaded []) (Str.lit "shirt")
    (Str.lit "acme, zenith") = Crashed KeyError.
Proof. by apply main_summary_empty_pages. Defined.

(** X17. Every record of the frame that [main] summarises was returned by
    [get_product_info] for a page that loaded, and that page was requested
    for one of the brands and one of the titles entered, both stripped of
    surrounding white space; the record has this title for category and
    this brand for brand name. *)
Theorem main_summary_records unicode_decimal unicode_space site titles_line
    brands_line df summary category_summary r :
  main_summary unicode_decimal unicode_space site titles_line brands_line =
    Summarised df summary category_summary →
  r ∈ df →
  ∃ brand_name title n product_elements,
    brand_name ∈ Text.split Str.comma brands_line ∧
    title ∈ Text.split Str.comma titles_line ∧
    let user_brand_name :=
      Text.strip (Text.is_space unicode_space) brand_name in
    let category := Text.strip (Text.is_space unicode_space) title in
    site n (url user_brand_name category) = Loaded product_elements ∧
    r ∈ get_product_info unicode_decimal product_elements category
          user_brand_name ∧
    Category r = category ∧ BrandName r = user_brand_name.
Proof.
  intros Hmain Hr.
  pose proof (main_summary_cases unicode_decimal unicode_space site
                titles_line brands_line) as Hcases.
  simpl in Hcases. rewrite Hmain in Hcases.
  destruct Hcases as (_ & -> & _).
  rewrite sort_values_by_keys_perm, brands_loop_collect in Hr. simpl in Hr.
  apply elem_of_collect in Hr as (i & b & t & els & Hi & Hsite & Hr).
  apply list_elem_of_lookup_2, elem_of_requests in Hi
    as (brand_name & title & Hb & Ht & [= -> ->]).
  exists brand_name, title, (0 + i)%nat, els.
  split; [done|]. split; [done|]. simpl. split; [done|]. split; [done|].
  by apply get_product_info_keys in Hr.
Qed.

Lemma main_summary_records_witness :
  ∃ df summary category_summary,
    main_summary ascii_only (λ _, false) (λ _ _, Loaded [Example.plain_card])
      (Str.lit " shirt") (Str.lit "acme ") =
      Summarised df summary category_summary ∧
    ∀ r, r ∈ df →
      Category r = Str.lit "shirt" ∧ BrandName r = Str.lit "acme".
Proof.
  do 3 eexists. split; [vm_compute; reflexivity|]. intros r Hr.
  eapply (main_summary_records ascii_only (λ _, false)
            (λ _ _, Loaded [Example.plain_card]) (Str.lit " shirt")
            (Str.lit "acme ")) in Hr; [|vm_compute; reflexivity].
  destruct Hr as (b & t & n & els & Hb & Ht & _ & _ & Hc & Hbn).
  apply list_elem_of_singleton in Hb, Ht. subst b t. by split.
Defined.

(** X18. When the titles entered are distinct after stripping, and the
    brands too, the records of one category and one brand in the frame that
    [main] summarises have distinct sale prices: each (category, brand)
    group is the result of one call of [get_product_info]. *)
Theorem main_summary_group_prices unicode_decimal unicode_space site
    titles_line brands_line df summary category_summary category
    user_brand_name :
  NoDup (Text.strip (Text.is_space unicode_space) <$>
         Text.split Str.comma titles_line) →
  NoDup (Text.strip (Text.is_space unicode_space) <$>
         Text.split Str.comma brands_line) →
  main_summary unicode_decimal unicode_space site titles_line brands_line =
    Summarised df summary category_summary →
  NoDup (ActualSalePrice <$>
         filter (λ r, Category r = category ∧ BrandName r = user_brand_name)
           df).
Proof.
  intros Ht Hb Hmain.
  pose proof (main_summary_cases unicode_decimal unicode_space site
                titles_line brands_line) as Hcases.
  simpl in Hcases. rewrite Hmain in Hcases.
  destruct Hcases as (_ & -> & _).
  rewrite sort_values_by_keys_perm, brands_loop_collect. simpl.
  by apply collect_NoDup, requests_NoDup.
Qed.

Lemma main_summary_group_prices_witness :
  ∃ df summary category_summary,
    main_summary ascii_only (λ _, false)
      (λ _ _, Loaded [Example.plain_card; Example.plain_card])
      (Str.lit "shirt, coat") (Str.lit "acme") =
      Summarised df summary category_summary ∧
    NoDup (ActualSalePrice <$>
           filter (λ r, Category r = Str.lit "coat" ∧
                        BrandName r = Str.lit "acme") df).
Proof.
  do 3 eexists. split; [vm_compute; reflexivity|].
  eapply (main_summary_group_prices ascii_only (λ _, false)
            (λ _ _, Loaded [Example.plain_card; Example.plain_card])
            (Str.lit "shirt, coat") (Str.lit "acme"));
    [apply (bool_decide_unpack _); vm_compute; exact I
    |apply (bool_decide_unpack _); vm_compute; exact I
    |vm_compute; reflexivity].
Defined.

(** ** File names *)

Module Path_facts.

Lemma rfind_from_app P l1 l2 i found :
  Path.rfind_from P (l1 ++ l2) i found =
  Path.rfind_from P l2 (i + length l1) (Path.rfind_from P l1 i found).
Proof.
  revert i found. induction l1 as [|c l1 IH]; intros i found; simpl.
  { by rewrite Nat.add_0_r. }
  by rewrite IH, Nat.add_succ_r.
Qed.

Lemma rfind_from_none P l i found :
  Forall (λ c, P c = false) l → Path.rfind_from P l i found = found.
Proof.
  intros Hl. revert i. induction Hl as [|c l Hc _ IH]; intros i; simpl;
    [done|].
  by rewrite Hc.
Qed.

Lemma rfind_from_hit P c l i found :
  P c = true → Forall (λ c, P c = false) l →
  Path.rfind_from P (c :: l) i found = Some i.
Proof. intros Hc Hl. simpl. by rewrite Hc, rfind_from_none. Qed.

Lemma rfind_from_split P l i found d :
  Path.rfind_from P l i found = Some d →
  (found = Some d ∧ Forall (λ c, P c = false) l) ∨
  ∃ l1 c l2, l = l1 ++ c :: l2 ∧ d = (i + length l1)%nat ∧ P c = true ∧
    Forall (λ c, P c = false) l2.
Proof.
  revert i found. induction l as [|c l IH]; intros i found; simpl.
  { intros ->. by left. }
  intros [[Hfound Hl]|(l1 & c' & l2 & -> & -> & Hc' & Hl2)]%IH.
  - destruct (P c) eqn:Hc.
    + injection Hfound as <-. right. exists [], c, l. simpl.
      by rewrite Nat.add_0_r.
    + left. split; [done|]. by apply Forall_cons.
  - right. exists (c :: l1), c', l2. simpl. by rewrite Nat.add_succ_r.
Qed.

Lemma rfind_Some P p d :
  Path.rfind P p = Some d →
  ∃ l1 c l2, p = l1 ++ c :: l2 ∧ d = length l1 ∧ P c = true ∧
    Forall (λ c, P c = false) l2.
Proof.
  intros [[[=] _]|(l1 & c & l2 & -> & -> & Hc & Hl2)]%rfind_from_split.
  by exists l1, c, l2.
Qed.

Lemma rfind_from_None P l i found :
  Path.rfind_from P l i found = None →
  found = None ∧ Forall (λ c, P c = false) l.
Proof.
  revert i found. induction l as [|c l IH]; intros i found; simpl; [done|].
  intros [Hfound Hl]%IH. destruct (P c) eqn:Hc; [done|].
  split; [done|]. by apply Forall_cons.
Qed.

(** A name ends in six digits of a time, after an underscore. *)
Lemma pretty_digit (k : N) :
  (k < 10)%N → Str.lit (pretty k) = [(48 + k)%N].
Proof.
  intros Hk. destruct k as [|k]; [done|].
  do 4 (destruct k as [k|k|]; try lia; try reflexivity).
Qed.

Lemma two_digits_digits (n : N) :
  (n < 100)%N →
  ∃ a b, Format.two_digits n = [a; b] ∧
    (48 ≤ a ≤ 57)%N ∧ (48 ≤ b ≤ 57)%N.
Proof.
  intros Hn. unfold Format.two_digits.
  assert (n / 10 < 10)%N as Ha by (apply N.Div0.div_lt_upper_bound; lia).
  assert (n mod 10 < 10)%N as Hb by (apply N.mod_lt; lia).
  rewrite !pretty_digit by done.
  exists (48 + n / 10)%N, (48 + n mod 10)%N. split; [done|].
  revert Ha Hb. generalize (n / 10)%N (n mod 10)%N. lia.
Qed.

End Path_facts.

Module Filename_facts.

Local Open Scope nat_scope.

Section splitext.

Variable is_sep : N → bool.

Abbreviation is_dot := (λ c : N, bool_decide (c = Str.full_stop)).
Abbreviation filename_index p := (from_option S 0 (Path.rfind is_sep p)).

(** From the last full stop on, a path whose extension starts there has no
    separator. *)
Lemma splitext_no_sep l1 c l2 :
  filename_index (l1 ++ c :: l2) ≤ length l1 →
  Forall (λ c, is_sep c = false) (c :: l2).
Proof.
  destruct (Path.rfind is_sep (l1 ++ c :: l2)) as [s|] eqn:Hs; simpl.
  - apply Path_facts.rfind_Some in Hs as (m1 & c' & m2 & Hp & -> & _ & Hm2).
    intros Hle.
    assert (c :: l2 = drop (length l1 - S (length m1)) m2) as ->;
      [|by apply Forall_drop].
    rewrite <-(drop_app_length l1 (c :: l2)), Hp.
    rewrite drop_app_ge by lia.
    replace (length l1 - length m1) with (S (length l1 - S (length m1)))
      by lia.
    done.
  - intros _. apply Path_facts.rfind_from_None in Hs as [_ Hp].
    by apply Forall_app in Hp as [_ Hp].
Qed.

Lemma rfind_app_none P l k :
  Forall (λ c, P c = false) k → Path.rfind P (l ++ k) = Path.rfind P l.
Proof.
  intros Hk. unfold Path.rfind.
  by rewrite Path_facts.rfind_from_app, Path_facts.rfind_from_none.
Qed.

(** A text without full stop or separator, put before the extension of a
    path, leaves the extension what it is. *)
Lemma splitext_insert p c0 u :
  Forall (λ c, c ≠ Str.full_stop) (c0 :: u) →
  Forall (λ c, is_sep c = false) (c0 :: u) →
  ∃ root ext,
    Path.splitext is_sep p = (root, ext) ∧ p = root ++ ext ∧
    Path.splitext is_sep (root ++ (c0 :: u) ++ ext) = (root ++ c0 :: u, ext).
Proof.
  intros Hdots Hseps.
  assert (Forall (λ c, is_dot c = false) (c0 :: u)) as Hdots'.
  { eapply Forall_impl; [exact Hdots|]. cbv beta. intros c Hc.
    by apply bool_decide_eq_false. }
  unfold Path.splitext at 1.
  destruct (Path.rfind is_dot p) as [d|] eqn:Hdot.
  - pose proof Hdot as (l1 & c & l2 & Hp & Hd & Hc & Hl2)
      %Path_facts.rfind_Some.
    apply bool_decide_eq_true in Hc.
    destruct (bool_decide _ && bool_decide _) eqn:Hcond.
    + subst p d c. rewrite take_app_length, drop_app_length.
      apply andb_true_iff in Hcond as [Hle%bool_decide_eq_true _].
      pose proof (splitext_no_sep _ _ _ Hle) as Hext.
      exists l1, (Str.full_stop :: l2). split; [done|]. split; [done|].
      assert (Path.rfind is_sep (l1 ++ Str.full_stop :: l2) =
              Path.rfind is_sep l1) as Hsep by by apply rfind_app_none.
      rewrite Hsep in Hle.
      unfold Path.splitext. rewrite app_assoc.
      rewrite (rfind_app_none is_sep), (rfind_app_none is_sep) by done.
      assert (Path.rfind is_dot ((l1 ++ c0 :: u) ++ Str.full_stop :: l2) =
              Some (length (l1 ++ c0 :: u))) as ->.
      { unfold Path.rfind. rewrite Path_facts.rfind_from_app.
        by apply Path_facts.rfind_from_hit. }
      rewrite take_app_length, drop_app_length.
      rewrite bool_decide_eq_true_2 by (rewrite length_app; lia).
      rewrite bool_decide_eq_true_2; [done|].
      apply Exists_exists. exists c0.
      split; [|by apply Forall_cons in Hdots as [? _]].
      apply list_elem_of_lookup. exists (length l1 - filename_index l1).
      rewrite lookup_take_lt by (rewrite length_app; simpl; lia).
      rewrite lookup_drop, <-app_assoc. apply list_lookup_middle. lia.
    + exists p, []. rewrite !app_nil_r. split; [done|]. split; [done|].
      unfold Path.splitext.
      rewrite (rfind_app_none is_sep), (rfind_app_none is_dot) by done.
      rewrite Hdot.
      assert (d < length p) by (subst p d; rewrite length_app; simpl; lia).
      destruct (decide (filename_index p ≤ d)) as [Hle|Hgt].
      * rewrite drop_app_le by lia.
        rewrite take_app_le by (rewrite length_drop; lia).
        by rewrite Hcond.
      * by rewrite (bool_decide_eq_false_2 (filename_index p ≤ d)).
  - exists p, []. rewrite !app_nil_r. split; [done|]. split; [done|].
    unfold Path.splitext.
    by rewrite (rfind_app_none is_dot), Hdot.
Qed.

End splitext.

(** The time stamp: six digits. *)
Lemma strftime_HMS_digits now :
  (hour now < 24)%N → (minute now < 60)%N → (second now < 60)%N →
  length (strftime_HMS now) = 6 ∧
  Forall (λ c, (48 ≤ c ≤ 57)%N) (strftime_HMS now).
Proof.
  intros Hh Hm Hs. unfold strftime_HMS.
  destruct (Path_facts.two_digits_digits (hour now))
    as (h1 & h2 & -> & ? & ?); [lia|].
  destruct (Path_facts.two_digits_digits (minute now))
    as (m1 & m2 & -> & ? & ?); [lia|].
  destruct (Path_facts.two_digits_digits (second now))
    as (s1 & s2 & -> & ? & ?); [lia|].
  split; [done|]. simpl.
  repeat (apply Forall_cons; split; [done|]). apply Forall_nil_2.
Qed.

End Filename_facts.

(** X19. When the name is taken, [generate_unique_filename] returns it with
    an underscore and the six digits of the time of day put before its
    extension: the new name is seven characters longer, differs from the
    name given, and has the same extension, where the separators of the
    platform are among the slash and the backslash.  A name that is free
    is returned as it is. *)
Theorem generate_unique_filename_taken is_sep path_exists now base_filename :
  (∀ c, is_sep c = true → c = 47%N ∨ c = 92%N) →
  (hour now < 24)%N → (minute now < 60)%N → (second now < 60)%N →
  let filename :=
    generate_unique_filename is_sep path_exists now base_filename in
  if path_exists base_filename then
    ∃ base ext,
      Path.splitext is_sep base_filename = (base, ext) ∧
      base_filename = base ++ ext ∧
      filename = base ++ Str.lit "_" ++ strftime_HMS now ++ ext ∧
      Path.splitext is_sep filename =
        (base ++ Str.lit "_" ++ strftime_HMS now, ext) ∧
      length filename = (length base_filename + 7)%nat ∧
      filename ≠ base_filename
  else filename = base_filename.
Proof.
  intros Hsep Hh Hm Hs filename. subst filename.
  unfold generate_unique_filename.
  destruct (path_exists base_filename); simpl; [|done].
  destruct (Filename_facts.strftime_HMS_digits now Hh Hm Hs)
    as [Hlen Hdigits].
  destruct (Filename_facts.splitext_insert is_sep base_filename 95%N
              (strftime_HMS now)) as (base & ext & Hsplit & Hbase & Hnew).
  { apply Forall_cons. split; [done|].
    eapply Forall_impl; [done|]. simpl. intros c Hc ->.
    unfold Str.full_stop in Hc. lia. }
  { apply Forall_cons. split.
    - destruct (is_sep 95%N) eqn:H95; [|done].
      by destruct (Hsep _ H95).
    - eapply Forall_impl; [done|]. simpl. intros c Hc.
      destruct (is_sep c) eqn:Hc'; [|done].
      destruct (Hsep _ Hc') as [-> | ->]; lia. }
  rewrite Hsplit. exists base, ext.
  assert (length (base ++ Str.lit "_" ++ strftime_HMS now ++ ext) =
          (length base_filename + 7)%nat) as Hlength.
  { rewrite Hbase, !length_app, Hlen. simpl. lia. }
  split; [done|]. split; [done|]. split; [done|]. split; [apply Hnew|].
  split; [done|].
  assert (∀ l : str, length l = (length base_filename + 7)%nat →
                     l ≠ base_filename) as Hne by (intros l Hl ->; lia).
  apply Hne, Hlength.
Qed.

Lemma generate_unique_filename_taken_witness :
  generate_unique_filename (λ c, bool_decide (c = 47%N)) (λ _, true)
    {| hour := 9; minute := 5; second := 30 |}
    (Str.lit "musinsa_products_20240101.xlsx") ≠
  Str.lit "musinsa_products_20240101.xlsx".
Proof.
  pose proof (generate_unique_filename_taken (λ c, bool_decide (c = 47%N))
                (λ _, true) {| hour := 9; minute := 5; second := 30 |}
                (Str.lit "musinsa_products_20240101.xlsx")) as Htaken.
  simpl in Htaken.
  destruct Htaken as (base & ext & _ & _ & _ & _ & _ & Hne);
    [by intros c ->%bool_decide_eq_true; left|done|done|done|].
  exact Hne.
Defined.

(** ** The bar chart *)

Section Chart_facts.

Lemma contains_prefix needle hay :
  needle `prefix_of` hay → Text.contains needle hay = true.
Proof.
  intros Hpre. destruct hay; cbn [Text.contains];
    by rewrite bool_decide_eq_true_2.
Qed.

Lemma contains_absent c needle hay :
  c ∉ hay → Text.contains (c :: needle) hay = false.
Proof.
  induction hay as [|x hay IH]; intros Hc; cbn [Text.contains].
  - rewrite bool_decide_eq_false_2; [done|].
    by intros [k [=]].
  - rewrite bool_decide_eq_false_2.
    + apply IH. intros Hin. apply Hc. by right.
    + intros [k [= -> _]]. apply Hc. by left.
Qed.

(** The digits of a number are digits. *)
Lemma pretty_N_go_digits (x : N) (s : string) :
  Forall (λ c, (48 ≤ c ≤ 57)%N) (Str.lit s) →
  Forall (λ c, (48 ≤ c ≤ 57)%N) (Str.lit (pretty_N_go x s)).
Proof.
  revert s. induction (N.lt_wf_0 x) as [x _ IH]; intros s Hs.
  destruct (decide (x = 0%N)) as [->|Hx].
  { by rewrite pretty_N_go_0. }
  rewrite pretty_N_go_step by lia.
  apply IH; [apply N.div_lt; lia|].
  change (Str.lit (String (pretty_N_char (x `mod` 10)) s))
    with (Ascii.N_of_ascii (pretty_N_char (x `mod` 10)) :: Str.lit s).
  apply Forall_cons. split; [|done].
  unfold pretty_N_char.
  destruct (x `mod` 10)%N as [|p]; [simpl; lia|].
  do 4 (destruct p as [p|p|]; try (simpl; lia)).
Qed.

Lemma pretty_N_digits (n : N) :
  Forall (λ c, (48 ≤ c ≤ 57)%N) (Str.lit (pretty n)).
Proof.
  unfold pretty, pretty_N. case_decide.
  - apply Forall_singleton. simpl. lia.
  - apply pretty_N_go_digits. apply Forall_nil_2.
Qed.

Lemma digits_without (c : N) (l : str) :
  Forall (λ x, (48 ≤ x ≤ 57)%N) l → (c < 48 ∨ 57 < c)%N → c ∉ l.
Proof.
  intros Hl Hc Hin. rewrite Forall_forall in Hl. specialize (Hl c Hin). lia.
Qed.

Lemma int_without (c : N) (n : nat) :
  (c < 48 ∨ 57 < c)%N → c ∉ Format.int n.
Proof. apply digits_without, pretty_N_digits. Qed.

Lemma fixed2_without (c : N) (x : option Qc) :
  (57 < c)%N → c ∉ Str.lit "nan" → c ∉ Format.fixed2 x.
Proof.
  intros Hc Hnan. destruct x as [q|]; [|done]. unfold Format.fixed2.
  unfold Format.two_digits. rewrite !not_elem_of_app.
  split; [|split; [|split; [|split]]].
  - case_decide; [|apply not_elem_of_nil].
    intros ->%list_elem_of_singleton. vm_compute in Hc. done.
  - apply digits_without; [apply pretty_N_digits|lia].
  - intros ->%list_elem_of_singleton. vm_compute in Hc. done.
  - apply digits_without; [apply pretty_N_digits|lia].
  - apply digits_without; [apply pretty_N_digits|lia].
Qed.

(** The two patterns of the chart tell the two labels of the summary
    apart. *)
Lemma metric_original_patterns count :
  Text.contains (Str.lit "Original Price") (metric_original count) = true ∧
  Text.contains (Str.lit "Actual Sale Price") (metric_original count) = false.
Proof.
  split.
  - apply contains_prefix.
    by exists (Str.lit " (" ++ Format.int count ++ Str.lit ")").
  - change (Str.lit "Actual Sale Price")
      with (65%N :: Str.lit "ctual Sale Price").
    apply contains_absent. unfold metric_original.
    rewrite !not_elem_of_app. split; [|split].
    + apply (bool_decide_unpack _). vm_compute. exact I.
    + apply int_without. lia.
    + apply (bool_decide_unpack _). vm_compute. exact I.
Qed.

Lemma metric_actual_patterns rate :
  Text.contains (Str.lit "Original Price") (metric_actual rate) = false ∧
  Text.contains (Str.lit "Actual Sale Price") (metric_actual rate) = true.
Proof.
  split.
  - change (Str.lit "Original Price") with (79%N :: Str.lit "riginal Price").
    apply contains_absent. unfold metric_actual.
    rewrite !not_elem_of_app. split; [|split].
    + apply (bool_decide_unpack _). vm_compute. exact I.
    + apply fixed2_without; [lia|].
      apply (bool_decide_unpack _). vm_compute. exact I.
    + apply (bool_decide_unpack _). vm_compute. exact I.
  - apply contains_prefix.
    by exists (Str.lit " (" ++ Format.fixed2 rate ++ Str.lit "%)").
Qed.







End Chart_facts.



(** ** The order of the brand summary *)

Section Blocks.

Context `{Lexico K, !StrictOrder (@lexico K _), !TrichotomyT (@lexico K _)}.
Variable key : SummaryRow.t → K.
Variable block : K → list SummaryRow.t.
Hypothesis block_key : ∀ k row, row ∈ block k → key row = k.

Lemma elem_of_blocks ks row :
  row ∈ concat (block <$> ks) → key row ∈ ks.
Proof.
  induction ks as [|k ks IH]; simpl; [by intros ?%elem_of_nil|].
  intros [Hrow|Hrow]%elem_of_app.
  - rewrite (block_key _ _ Hrow). by left.
  - right. by apply IH.
Qed.

Lemma blocks_sorted ks :
  StronglySorted lex_le ks →
  StronglySorted (λ r1 r2, lex_le (key r1) (key r2)) (concat (block <$> ks)).
Proof.
  induction 1 as [|k ks Hks IH Hk]; simpl; [constructor|].
  apply StronglySorted_app_2; [| |done].
  - intros r1 r2 Hr1 Hr2. rewrite (block_key _ _ Hr1).
    rewrite Forall_forall in Hk. by apply Hk, elem_of_blocks.
  - assert (∀ l, (∀ row, row ∈ l → key row = k) →
              StronglySorted (λ r1 r2, lex_le (key r1) (key r2)) l) as Hsame.
    { induction l as [|r l IHl]; intros Hl; constructor.
      - apply IHl. intros row Hrow. apply Hl. by right.
      - apply Forall_forall. intros r' Hr'.
        rewrite (Hl r) by (by left). rewrite (Hl r') by (by right).
        by left. }
    apply Hsame. intros row. apply block_key.
Qed.

Lemma blocks_NoDup {B} (π : SummaryRow.t → B) (proj : B → K) ks :
  (∀ row, proj (π row) = key row) →
  (∀ k, NoDup (π <$> block k)) →
  NoDup ks → NoDup (π <$> concat (block <$> ks)).
Proof.
  intros Hproj Hblock. induction 1 as [|k ks Hk _ IH]; simpl; [constructor|].
  rewrite fmap_app. apply NoDup_app. split; [done|]. split; [|done].
  intros b (r1 & -> & Hr1)%list_elem_of_fmap
    (r2 & Heq & Hr2)%list_elem_of_fmap.
  apply Hk. apply elem_of_blocks in Hr2.
  apply (f_equal proj) in Heq. rewrite !Hproj in Heq.
  by rewrite <-(block_key _ _ Hr1), Heq.
Qed.

End Blocks.

Section Summary_order.

Implicit Types (df group : list ProductRecord).

Lemma brand_loop_concat groups :
  (brand_loop groups).1 =
  concat ((λ g, brand_rows g.1.1 g.1.2 g.2) <$> groups).
Proof.
  unfold brand_loop.
  assert (∀ acc, (foldl brand_body acc groups).1 =
                 acc.1 ++ concat ((λ g, brand_rows g.1.1 g.1.2 g.2)
                                    <$> groups)) as Hgen; [|apply Hgen].
  induction groups as [|[[c b] g] gs IH]; intros [summary bn]; simpl.
  { by rewrite app_nil_r. }
  rewrite IH. simpl. by rewrite app_assoc.
Qed.

Lemma brand_rows_keys category brand_name group row :
  row ∈ brand_rows category brand_name group →
  (SummaryRow.Category row, SummaryRow.BrandName row) = (category, brand_name).
Proof. by intros [-> [-> _]]%elem_of_brand_rows. Qed.

Lemma brand_rows_key_NoDup category brand_name group :
  NoDup (row_key <$> brand_rows category brand_name group).
Proof.
  unfold brand_rows.
  destruct (Series.dropna (OriginalPrice <$> group)) as [|x xs];
    destruct (Series.dropna (ActualSalePrice <$> group)) as [|y ys];
    cbn [app fmap list_fmap];
    try apply NoDup_nil_2; try apply NoDup_singleton.
  apply NoDup_cons. split; [|apply NoDup_singleton].
  intros Heq%list_elem_of_singleton. unfold row_key in Heq.
  cbn [SummaryRow.Category SummaryRow.BrandName SummaryRow.Metric stats_row] in Heq.
  rewrite (proj1 (metric_original_patterns _)) in Heq.
  by rewrite (proj1 (metric_actual_patterns _)) in Heq.
Qed.

Lemma group_keys_sorted `{EqDecision K, Lexico K, !StrictOrder (@lexico K _),
    !TrichotomyT (@lexico K _)} (key : ProductRecord → K) df :
  StronglySorted lex_le (group_keys key df) ∧ NoDup (group_keys key df).
Proof.
  unfold group_keys. split.
  - apply StronglySorted_merge_sort; apply _.
  - rewrite merge_sort_Permutation. apply NoDup_remove_dups.
Qed.

End Summary_order.

(** X21. The brand summary is in ascending order of category and, within a
    category, of brand, and it has at most one row for a category, a brand
    and a price field. *)
Theorem summary_sorted df summary category_summary :
  calculate_summary_stats df = Ok (summary, category_summary) →
  Sorted (λ r1 r2, lex_le (SummaryRow.Category r1, SummaryRow.BrandName r1)
                     (SummaryRow.Category r2, SummaryRow.BrandName r2)) summary ∧
  NoDup (row_key <$> summary).
Proof.
  unfold calculate_summary_stats.
  pose proof (brand_loop_concat
                (groupby (λ r, (Category r, BrandName r)) df)) as Hrows.
  destruct (brand_loop _) as [summary' brand_name]. simpl in Hrows.
  destruct (category_loop _ _) as [[stats bn]|e]; simpl; [|done].
  destruct (sort_values_by_category stats); simpl; [|done].
  intros [= <- _]. subst summary'.
  unfold groupby. rewrite <-list_fmap_compose.
  destruct (group_keys_sorted (λ r, (Category r, BrandName r)) df)
    as [Hsorted Hnodup].
  set (block := λ k : str * str,
         brand_rows k.1 k.2
           (filter (λ r, (Category r, BrandName r) = k) df)).
  assert (∀ k row, row ∈ block k →
            (SummaryRow.Category row, SummaryRow.BrandName row) = k) as Hblock.
  { intros [c b] row Hrow. by apply brand_rows_keys in Hrow. }
  split.
  - apply StronglySorted_Sorted.
    by apply (blocks_sorted (λ row, (SummaryRow.Category row, SummaryRow.BrandName row))
                block).
  - apply (blocks_NoDup (λ row, (SummaryRow.Category row, SummaryRow.BrandName row)) block
             Hblock row_key fst); [done| |done].
    intros [c b]. apply brand_rows_key_NoDup.
Qed.

Lemma summary_sorted_witness :
  ∃ summary category_summary,
    calculate_summary_stats
      [Example.discounted_record; Example.plain_record] =
      Ok (summary, category_summary) ∧
    NoDup (row_key <$> summary).
Proof.
  do 2 eexists. split; [vm_compute; reflexivity|].
  eapply (summary_sorted [Example.discounted_record; Example.plain_record]).
  vm_compute. reflexivity.
Defined.

(** ** The report *)

Lemma first_seen_ext `{Countable A} (seen seen' : gset A) (l : list A) :
  (∀ x, x ∈ l → (x ∈ seen ↔ x ∈ seen')) →
  first_seen seen l = first_seen seen' l.
Proof.
  revert seen seen'. induction l as [|y l IH]; intros seen seen' Hext;
    simpl; [done|].
  destruct (decide (y ∈ seen)) as [Hy|Hy].
  - rewrite decide_True by (apply Hext; [by left|done]).
    apply IH. intros x Hx. apply Hext. by right.
  - rewrite decide_False by (rewrite <-Hext; [done|by left]).
    f_equal. apply IH. intros x Hx.
    rewrite !elem_of_union, Hext by (by right). done.
Qed.

Lemma StronglySorted_impl {A} (R R' : relation A) (l : list A) :
  (∀ a b, a ∈ l → b ∈ l → R a b → R' a b) →
  StronglySorted R l → StronglySorted R' l.
Proof.
  intros Himpl. induction 1 as [|a l Hl IH Ha]; constructor.
  - apply IH. intros b c Hb Hc. apply Himpl; by right.
  - apply Forall_forall. intros b Hb. rewrite Forall_forall in Ha.
    apply Himpl; [by left|by right|by apply Ha].
Qed.

Lemma StronglySorted_filter {A} (R : relation A) (P : A → Prop)
    `{∀ a, Decision (P a)} (l : list A) :
  StronglySorted R l → StronglySorted R (filter P l).
Proof.
  induction 1 as [|a l Hl IH Ha]; [constructor|].
  rewrite filter_cons. destruct (decide (P a)); [|done].
  constructor; [done|]. apply Forall_forall.
  intros b [_ Hb]%list_elem_of_filter. rewrite Forall_forall in Ha.
  by apply Ha.
Qed.

Section Groups.

Context {A : Type}.
Context `{Countable K, Lexico K, !StrictOrder (@lexico K _),
          !TrichotomyT (@lexico K _)}.
Variable key : A → K.

(** A list in the order of its keys is the sequence of its groups, taken
    in the order in which the keys first appear. *)
Lemma sorted_groups (l : list A) :
  StronglySorted (λ a b, lex_le (key a) (key b)) l →
  concat ((λ k, filter (λ a, key a = k) l) <$> first_seen ∅ (key <$> l)) = l.
Proof.
  induction 1 as [|x l Hl IH Hx]; [done|].
  cbn [fmap list_fmap first_seen]. rewrite decide_False by set_solver.
  cbn [fmap list_fmap concat]. rewrite filter_cons_True by done.
  cbn [app]. f_equal.
  assert ((λ k, filter (λ a, key a = k) (x :: l)) <$>
            first_seen (∅ ∪ {[key x]}) (key <$> l) =
          (λ k, filter (λ a, key a = k) l) <$>
            first_seen (∅ ∪ {[key x]}) (key <$> l)) as ->.
  { apply Forall_fmap_ext_1, Forall_forall.
    intros k [Hk _]%first_seen_fresh. apply filter_cons_False.
    intros Heq. apply Hk. rewrite Heq. set_solver. }
  destruct Hl as [|y l' Hl' Hy]; [done|].
  destruct (decide (key y = key x)) as [Heq|Hne].
  - revert IH. cbn [fmap list_fmap first_seen].
    rewrite decide_False by set_solver.
    rewrite decide_True by (rewrite Heq; set_solver).
    cbn [fmap list_fmap concat]. by rewrite Heq.
  - assert (∀ a, a ∈ y :: l' → key a ≠ key x) as Hfresh.
    { intros a Ha Heq. apply Hne.
      apply Forall_cons in Hx as [Hxy Hx].
      apply (anti_symm lex_le); [|done].
      apply elem_of_cons in Ha as [->|Ha]; [by rewrite Heq|].
      rewrite <-Heq. rewrite Forall_forall in Hy. by apply Hy. }
    rewrite filter_none by (intros a Ha; by apply Hfresh).
    rewrite (first_seen_ext _ ∅); [done|].
    intros k (a & -> & Ha)%list_elem_of_fmap.
    specialize (Hfresh a Ha). set_solver.
Qed.

End Groups.

Section Report_facts.

Variable str_of : Qc → str.

Abbreviation by_keys :=
  (λ r1 r2 : SummaryRow.t, lex_le (SummaryRow.Category r1, SummaryRow.BrandName r1)
                      (SummaryRow.Category r2, SummaryRow.BrandName r2)).

Lemma lex_le_fst (c1 c2 b1 b2 : str) :
  lex_le (c1, b1) (c2, b2) → lex_le c1 c2.
Proof.
  intros [[= -> _]|[Hlt|[Heq _]]]; [by left|by right|by left].
Qed.

Lemma lex_le_snd (c b1 b2 : str) : lex_le (c, b1) (c, b2) → lex_le b1 b2.
Proof.
  intros [[= ->]|[Hlt|[_ Hlt]]]; [by left| |by right].
  simpl in Hlt. by destruct (irreflexivity lexico c).
Qed.

Lemma by_keys_transitive : Transitive by_keys.
Proof. intros r1 r2 r3. apply (transitivity (R:=lex_le)). Qed.

Lemma table_rows_app doc doc' :
  table_rows (doc ++ doc') = table_rows doc ++ table_rows doc'.
Proof. apply bind_app. Qed.

Lemma pictures_app doc doc' :
  pictures (doc ++ doc') = pictures doc ++ pictures doc'.
Proof. apply bind_app. Qed.

Lemma brand_blocks_rows category_data brands :
  table_rows (brands ≫= brand_blocks str_of category_data) =
  cells str_of <$>
    concat ((λ brand, filter (λ row, SummaryRow.BrandName row = brand)
                        category_data) <$> brands).
Proof.
  induction brands as [|brand brands IH]; [done|].
  rewrite bind_cons, table_rows_app, IH.
  cbn [fmap list_fmap concat]. rewrite fmap_app. f_equal.
  unfold brand_blocks, table_rows. cbn [mbind list_bind app].
  by rewrite app_nil_r.
Qed.

Lemma brand_blocks_pictures category_data brands :
  pictures (brands ≫= brand_blocks str_of category_data) = [].
Proof.
  induction brands as [|brand brands IH]; [done|].
  by rewrite bind_cons, pictures_app, IH.
Qed.

Lemma category_blocks_rows summary_df category :
  StronglySorted by_keys summary_df →
  table_rows (category_blocks str_of summary_df category) =
  cells str_of <$> filter (λ row, SummaryRow.Category row = category) summary_df.
Proof.
  intros Hsorted. unfold category_blocks.
  rewrite !table_rows_app, brand_blocks_rows. unfold unique.
  rewrite (sorted_groups SummaryRow.BrandName).
  { cbn [table_rows mbind list_bind app]. by rewrite app_nil_r. }
  eapply StronglySorted_impl; [|by apply StronglySorted_filter].
  intros r1 r2 [Hc1 _]%list_elem_of_filter [Hc2 _]%list_elem_of_filter.
  cbv beta. rewrite Hc1, Hc2. apply lex_le_snd.
Qed.

Lemma categories_rows summary_df categories :
  StronglySorted by_keys summary_df →
  table_rows (categories ≫= category_blocks str_of summary_df) =
  cells str_of <$>
    concat ((λ category, filter (λ row, SummaryRow.Category row = category)
                           summary_df) <$> categories).
Proof.
  intros Hsorted. induction categories as [|category categories IH];
    [done|].
  rewrite bind_cons, table_rows_app, IH, category_blocks_rows by done.
  cbn [fmap list_fmap concat]. by rewrite fmap_app.
Qed.

Lemma categories_pictures summary_df categories :
  pictures (categories ≫= category_blocks str_of summary_df) =
  (λ category,
     (Str.lit "chart_" ++ category ++ Str.lit ".png",
      plot_bar_chart
        (filter (λ row, SummaryRow.Category row = category) summary_df)))
    <$> categories.
Proof.
  induction categories as [|category categories IH]; [done|].
  rewrite bind_cons, pictures_app, IH. unfold category_blocks at 1.
  rewrite !pictures_app, brand_blocks_pictures. done.
Qed.

End Report_facts.

(** X22. For a brand summary in the order of category and brand, as
    [calculate_summary_stats] returns it, the tables of the report hold
    the rows of the summary, each once and in the order of the summary:
    no row is left out and none is written under two brands.  The report
    has one chart for each category, in order of first appearance, drawn
    from the rows of that category and saved as chart_<category>.png. *)
Theorem create_docx_report_rows str_of summary_df :
  summary_df ≠ [] →
  Sorted (λ r1 r2, lex_le (SummaryRow.Category r1, SummaryRow.BrandName r1)
                     (SummaryRow.Category r2, SummaryRow.BrandName r2)) summary_df →
  ∃ doc,
    create_docx_report str_of summary_df = Ok doc ∧
    table_rows doc = cells str_of <$> summary_df ∧
    pictures doc =
      (λ category,
         (Str.lit "chart_" ++ category ++ Str.lit ".png",
          plot_bar_chart
            (filter (λ row, SummaryRow.Category row = category) summary_df)))
        <$> unique (SummaryRow.Category <$> summary_df).
Proof.
  intros Hne Hsorted.
  apply (@Sorted_StronglySorted _ _ by_keys_transitive) in Hsorted.
  unfold create_docx_report. destruct summary_df as [|row rows]; [done|].
  eexists. split; [done|]. split.
  - change (table_rows (?b :: ?doc)) with (table_rows doc).
    rewrite categories_rows by done. unfold unique.
    rewrite (sorted_groups SummaryRow.Category); [done|].
    eapply StronglySorted_impl; [|done].
    intros r1 r2 _ _. apply lex_le_fst.
  - change (pictures (?b :: ?doc)) with (pictures doc).
    apply categories_pictures.
Qed.

Lemma create_docx_report_rows_witness :
  ∃ doc,
    create_docx_report (λ _, []) Example_chart.data = Ok doc ∧
    table_rows doc = cells (λ _, []) <$> Example_chart.data.
Proof.
  destruct (create_docx_report_rows (λ _, []) Example_chart.data)
    as (doc & Hdoc & Hrows & _).
  - done.
  - unfold Example_chart.data.
    repeat (apply Sorted_cons; [|try apply HdRel_nil; try apply HdRel_cons;
                                 apply (bool_decide_unpack _);
                                 vm_compute; exact I]).
    apply Sorted_nil.
  - by exists doc.
Defined.

(** ** Records without numbers *)

Section Blank_facts.

Implicit Types (df group : list ProductRecord).

Lemma dropna_not_blank (field : ProductRecord → option Qc) group :
  (∀ r, blank r → field r = None) →
  Series.dropna (field <$> filter (λ r, ¬ blank r) group) =
  Series.dropna (field <$> group).
Proof.
  intros Hfield. unfold Series.dropna.
  induction group as [|r group IH]; [done|].
  rewrite filter_cons. destruct (decide (¬ blank r)) as [Hr|Hr].
  - cbn [fmap list_fmap omap list_omap]. by rewrite IH.
  - apply dec_stable in Hr. cbn [fmap list_fmap omap list_omap].
    by rewrite (Hfield r Hr).
Qed.

Lemma brand_rows_not_blank category brand_name group :
  brand_rows category brand_name (filter (λ r, ¬ blank r) group) =
  brand_rows category brand_name group.
Proof.
  unfold brand_rows.
  rewrite !dropna_not_blank; [done|..]; by intros r (? & ? & ?).
Qed.

Lemma concat_blocks_filter {K} (block : K → list SummaryRow.t) (P : K → Prop)
    `{∀ k, Decision (P k)} (ks : list K) :
  (∀ k, k ∈ ks → ¬ P k → block k = []) →
  concat (block <$> ks) = concat (block <$> filter P ks).
Proof.
  induction ks as [|k ks IH]; intros Hblock; [done|].
  rewrite filter_cons. cbn [fmap list_fmap concat].
  rewrite IH by (intros k' Hk'; apply Hblock; by right).
  destruct (decide (P k)) as [Hk|Hk]; [done|].
  by rewrite (Hblock k) by (done || by left).
Qed.

Lemma calculate_summary_stats_summary df summary category_summary :
  calculate_summary_stats df = Ok (summary, category_summary) →
  summary =
  concat ((λ k : str * str,
             brand_rows k.1 k.2
               (filter (λ r, (Category r, BrandName r) = k) df)) <$>
          group_keys (λ r, (Category r, BrandName r)) df).
Proof.
  unfold calculate_summary_stats.
  pose proof (brand_loop_concat
                (groupby (λ r, (Category r, BrandName r)) df)) as Hrows.
  destruct (brand_loop _) as [summary' brand_name]. simpl in Hrows.
  destruct (category_loop _ _) as [[stats bn]|e]; simpl; [|done].
  destruct (sort_values_by_category stats); simpl; [|done].
  intros [= <- _]. subst summary'.
  unfold groupby. by rewrite <-list_fmap_compose.
Qed.

Lemma summary_not_blank df :
  let key := λ r, (Category r, BrandName r) in
  concat ((λ k : str * str,
             brand_rows k.1 k.2 (filter (λ r, key r = k) df)) <$>
          group_keys key df) =
  concat ((λ k : str * str,
             brand_rows k.1 k.2
               (filter (λ r, key r = k) (filter (λ r, ¬ blank r) df))) <$>
          group_keys key (filter (λ r, ¬ blank r) df)).
Proof.
  intros key. set (df' := filter (λ r, ¬ blank r) df).
  assert (∀ k, brand_rows k.1 k.2 (filter (λ r, key r = k) df') =
               brand_rows k.1 k.2 (filter (λ r, key r = k) df)) as Hsame.
  { intros k. rewrite <-(brand_rows_not_blank _ _ (filter _ df)).
    f_equal. unfold df'. rewrite !list_filter_filter.
    apply filter_agree. intros r _. tauto. }
  rewrite (Forall_fmap_ext_1 _ _ (group_keys key df')
             (proj2 (Forall_forall _ _) (λ k _, Hsame k))).
  destruct (group_keys_sorted key df) as [Hsorted Hnodup].
  destruct (group_keys_sorted key df') as [Hsorted' Hnodup'].
  rewrite (concat_blocks_filter _ (λ k, k ∈ group_keys key df')).
  - f_equal. f_equal. apply (StronglySorted_unique lex_le);
      [by apply StronglySorted_filter|done|].
    apply NoDup_Permutation; [by apply NoDup_filter|done|].
    intros k. rewrite list_elem_of_filter, !elem_of_group_keys.
    split; [by intros [? _]|]. intros Hk. split; [done|].
    apply list_elem_of_fmap in Hk as (r & -> & [_ Hr]%list_elem_of_filter).
    by apply list_elem_of_fmap_2.
  - intros k Hk Hk'.
    rewrite <-(brand_rows_not_blank _ _ (filter _ df)).
    rewrite filter_none; [done|].
    intros r [Hkey Hr]%list_elem_of_filter Hblank. apply Hk'.
    apply elem_of_group_keys. rewrite <-Hkey.
    apply list_elem_of_fmap_2, list_elem_of_filter. by split.
Qed.

End Blank_facts.

(** X23. [extract_discount_rate] and [extract_price] are the same function:
    after the substitution no comma is left for [replace] to remove. *)
Theorem extract_discount_rate_price unicode_decimal text :
  extract_discount_rate unicode_decimal text =
  extract_price unicode_decimal text.
Proof.
  unfold extract_discount_rate, extract_price.
  by rewrite replace_comma_stripped.
Qed.

(** X24. The records that have no price and no discount rate, such as the
    record that [get_product_info] returns for a page without products,
    leave no trace in the brand summary: with or without them,
    [calculate_summary_stats] returns the same brand summary. *)
Theorem summary_without_blank df summary category_summary :
  calculate_summary_stats df = Ok (summary, category_summary) →
  ∃ category_summary',
    calculate_summary_stats (filter (λ r, ¬ blank r) df) =
    Ok (summary, category_summary').
Proof.
  intros Hdf.
  assert (Exists has_price df) as Hprice.
  { destruct (decide (Exists has_price df)) as [|Hno]; [done|].
    by rewrite (calculate_summary_stats_unpriced _ Hno) in Hdf. }
  assert (Exists has_price (filter (λ r, ¬ blank r) df)) as Hprice'.
  { apply Exists_exists in Hprice as (r & Hr & Hp). apply Exists_exists.
    exists r. split; [|done]. apply list_elem_of_filter. split; [|done].
    intros (Ho & _ & Ha). destruct Hp as [[? Hp]|[? Hp]]; congruence. }
  destruct (calculate_summary_stats_priced _ Hprice')
    as (summary' & category_summary' & Hdf').
  exists category_summary'. rewrite Hdf'. do 2 f_equal.
  apply calculate_summary_stats_summary in Hdf, Hdf'.
  rewrite Hdf, Hdf'. symmetry. apply summary_not_blank.
Qed.

Lemma summary_without_blank_witness :
  ∃ summary category_summary category_summary',
    calculate_summary_stats
      [sentinel Example.A Example.B; Example.plain_record] =
      Ok (summary, category_summary) ∧
    calculate_summary_stats [Example.plain_record] =
      Ok (summary, category_summary').
Proof.
  assert (∃ summary category_summary,
            calculate_summary_stats
              [sentinel Example.A Example.B; Example.plain_record] =
            Ok (summary, category_summary))
    as (summary & category_summary & Hdf)
    by (do 2 eexists; vm_compute; reflexivity).
  destruct (summary_without_blank _ _ _ Hdf) as [category_summary' Hdf'].
  exists summary, category_summary, category_summary'.
  split; [exact Hdf|exact Hdf'].
Defined.

(** ** A run that finds a price *)

Lemma get_product_info_first_card unicode_decimal element rest category
    user_brand_name :
  is_Some (card_sale_price unicode_decimal element) →
  Exists has_price
    (get_product_info unicode_decimal (element :: rest) category
       user_brand_name).
Proof.
  intros [q Hq]. unfold get_product_info.
  rewrite bool_decide_eq_false_2 by done. cbn [for_each].
  destruct (loop_body_iteration unicode_decimal category user_brand_name
              element initial) as [Hseen|r _ Hr _ _ _|e _ Hnone].
  - by apply elem_of_empty in Hseen.
  - match goal with |- Exists _ (for_each _ _ _ _ ?σ') =>
      pose proof (loop_extends unicode_decimal category user_brand_name
                    rest σ') as [more Hmore]
    end.
    rewrite Hmore. cbn [products app]. apply Exists_cons_hd. right.
    rewrite Hr, Hq. by eexists.
  - unfold card_sale_price in Hq. by rewrite Hnone in Hq.
Qed.

(** X25. A run of [main] gets its two summaries as soon as the first page
    requested loads and the first card on it has a sale price that parses:
    whatever the other cards and the later pages show or fail with, the
    run neither reports that no product was found nor ends in an
    exception of [calculate_summary_stats]. *)
Theorem main_summary_first_card unicode_decimal unicode_space site
    titles_line brands_line element rest :
  (∀ address, site 0%nat address = Loaded (element :: rest)) →
  is_Some (card_sale_price unicode_decimal element) →
  ∃ df summary category_summary,
    main_summary unicode_decimal unicode_space site titles_line brands_line =
    Summarised df summary category_summary.
Proof.
  intros Hsite Hsale.
  pose proof (main_summary_cases unicode_decimal unicode_space site
                titles_line brands_line) as Hcases.
  simpl in Hcases. rewrite brands_loop_collect in Hcases. simpl in Hcases.
  assert (Exists has_price
            (collect unicode_decimal site
               (requests unicode_space (Text.split Str.comma brands_line)
                  (Text.split Str.comma titles_line)) 0)) as Hprice.
  { unfold requests.
    destruct (split_cons_inv Str.comma brands_line) as (b & bs & ->).
    destruct (split_cons_inv Str.comma titles_line) as (t & ts & ->).
    cbn [mbind list_bind app collect]. rewrite Hsite.
    cbn [get_product_info_on]. apply Exists_app. left.
    by apply get_product_info_first_card. }
  destruct (main_summary _ _ _ _ _) as [|e|df summary category_summary].
  - rewrite Hcases in Hprice. by apply Exists_nil in Hprice.
  - destruct Hcases as (_ & _ & Hall).
    apply Exists_exists in Hprice as (r & Hr & Hp).
    rewrite Forall_forall in Hall. by destruct (Hall r Hr).
  - by exists df, summary, category_summary.
Qed.

Lemma main_summary_first_card_witness :
  ∃ df summary category_summary,
    main_summary ascii_only (λ _, false)
      (λ n _, if n is O then Loaded [Example.plain_card] else GetFailed)
      (Str.lit "shirt, coat") (Str.lit "acme") =
    Summarised df summary category_summary.
Proof.
  apply (main_summary_first_card ascii_only (λ _, false)
           (λ n _, if n is O then Loaded [Example.plain_card] else GetFailed)
           (Str.lit "shirt, coat") (Str.lit "acme") Example.plain_card []).
  - done.
  - vm_compute. by eexists.
Defined.

(** ** The rows of the category summary *)

Section Category_rows.

Implicit Types (df group : list ProductRecord).

Lemma category_body_shape category group st st' :
  category_body category group st = Ok st' →
  ∃ new, st'.1 = st.1 ++ new ∧
    (∀ row, row ∈ new → SummaryRow.Category row = category) ∧
    NoDup (category_key <$> new).
Proof.
  unfold category_body. destruct st as [stats bn].
  destruct (Series.dropna (OriginalPrice <$> group)) as [|x xs];
    destruct (Series.dropna (ActualSalePrice <$> group)) as [|y ys];
    cbn [fst].
  - intros [= <-]. exists []. rewrite app_nil_r.
    split; [done|]. split; [by intros row ?%elem_of_nil|constructor].
  - destruct bn as [b|]; [|done]. intros [= <-]. eexists [_].
    split; [done|]. split; [|apply NoDup_singleton].
    by intros row ->%list_elem_of_singleton.
  - intros [= <-]. eexists [_].
    split; [done|]. split; [|apply NoDup_singleton].
    by intros row ->%list_elem_of_singleton.
  - intros [= <-]. eexists [_; _]. cbn [fst]. rewrite <-app_assoc.
    split; [done|]. split.
    + intros row [-> | ->%list_elem_of_singleton]%elem_of_cons; done.
    + cbn [fmap list_fmap]. apply NoDup_cons.
      split; [|apply NoDup_singleton].
      intros Heq%list_elem_of_singleton. unfold category_key in Heq.
      cbn [SummaryRow.Category SummaryRow.Metric stats_row] in Heq.
      rewrite (proj1 (metric_original_patterns _)) in Heq.
      by rewrite (proj1 (metric_actual_patterns _)) in Heq.
Qed.

Lemma category_loop_NoDup groups st st' :
  category_loop groups st = Ok st' →
  NoDup groups.*1 →
  NoDup (category_key <$> st.1) →
  (∀ row, row ∈ st.1 → SummaryRow.Category row ∉ groups.*1) →
  NoDup (category_key <$> st'.1).
Proof.
  revert st. induction groups as [|[c g] gs IH]; intros st; simpl.
  { by intros [= <-]. }
  destruct (category_body c g st) as [st1|e] eqn:Hbody; simpl; [|done].
  intros Hloop [Hc Hgs]%NoDup_cons Hst Hfresh.
  apply category_body_shape in Hbody as (new & Hst1 & Hnew & Hkeys).
  apply (IH st1 Hloop Hgs).
  - rewrite Hst1, fmap_app. apply NoDup_app. split; [done|]. split; [|done].
    intros k (r1 & -> & Hr1)%list_elem_of_fmap
      (r2 & Heq & Hr2)%list_elem_of_fmap.
    apply (Hfresh r1 Hr1).
    apply (f_equal fst) in Heq. cbn [fst category_key] in Heq.
    rewrite Heq, (Hnew r2 Hr2). by left.
  - intros row. rewrite Hst1. intros [Hrow|Hrow]%elem_of_app.
    + intros Hin. apply (Hfresh row Hrow). by right.
    + by rewrite (Hnew row Hrow).
Qed.

Lemma groupby_fst `{EqDecision K, Lexico K, !StrictOrder (@lexico K _),
    !TrichotomyT (@lexico K _)} (key : ProductRecord → K) df :
  (groupby key df).*1 = group_keys key df.
Proof.
  unfold groupby. rewrite <-list_fmap_compose.
  induction (group_keys key df) as [|k ks IH]; [done|].
  cbn [fmap list_fmap]. by f_equal.
Qed.

End Category_rows.

(** X26. The category summary is never empty, and it has at most one row
    for a category and a price field. *)
Theorem category_summary_unique df summary category_summary :
  calculate_summary_stats df = Ok (summary, category_summary) →
  category_summary ≠ [] ∧ NoDup (category_key <$> category_summary).
Proof.
  unfold calculate_summary_stats.
  destruct (brand_loop _) as [summary' brand_name].
  destruct (category_loop _ _) as [[stats bn]|e] eqn:Hloop; simpl; [|done].
  unfold sort_values_by_category. destruct stats as [|row stats]; [done|].
  simpl. intros [= _ <-]. split.
  - intros Hnil.
    pose proof (merge_sort_Permutation
                  (λ r1 r2, lex_le (SummaryRow.Category r1) (SummaryRow.Category r2))
                  (row :: stats)) as Hp.
    rewrite Hnil in Hp. by apply Permutation_nil_l in Hp.
  - rewrite merge_sort_Permutation.
    apply (category_loop_NoDup _ _ _ Hloop); simpl.
    + rewrite groupby_fst. apply group_keys_sorted.
    + constructor.
    + by intros r ?%elem_of_nil.
Qed.

Lemma category_summary_unique_witness :
  ∃ summary category_summary,
    calculate_summary_stats
      [Example.discounted_record; Example.plain_record] =
      Ok (summary, category_summary) ∧
    NoDup (category_key <$> category_summary).
Proof.
  do 2 eexists. split; [vm_compute; reflexivity|].
  eapply (category_summary_unique
            [Example.discounted_record; Example.plain_record]).
  vm_compute. reflexivity.
Defined.
